(** * A distributed token-bucket rate limiter on Redis

    Shallow embedding of [langchain_redis_rate_limiter/limiter.py]:
    the Lua script [RedisRateLimiter._LUA_SCRIPT] that Redis executes
    atomically, and the Python acquisition client ([__init__], [acquire],
    [aacquire], [_execute_lua], [_execute_lua_async], [_consume],
    [_aconsume]).

    Numbers.  The numbers of the script are those of Lua 5.1: IEEE doubles.
    The script is written once, over the operations it uses, and read in
    two number systems.  In [float], the binary64 numbers of the kernel,
    every operation rounds as the one of Lua does: what is stated of the
    script in [float] is stated of the program.  In [Q] no operation
    rounds: this reading serves the statements on which rounding has no
    bearing (which replies a burst gets, which keys are touched, the order
    of the stored times).

    Atomicity.  Redis runs a script to completion before it serves another
    command, so one execution of the script is a function from the state of
    the server to a reply and a new state. *)

From Stdlib Require Import QArith Qminmax Qround Lqa ZArith List Lia.
From Stdlib Require Import Uint63 PrimFloat SpecFloat FloatOps FloatAxioms.
From stdpp Require Import gmap strings.

Local Open Scope Z_scope.
Local Open Scope string_scope.
Local Open Scope list_scope.

Set Warnings "-inexact-float".


(* ===================================================================== *)
(** * Lua numbers *)
(* ===================================================================== *)

Module Lua.

(** The operations on numbers the script uses: arithmetic, the two
    comparisons [a < b] and [a <= b], and the number an integer reads
    as ([tonumber] of a string of digits, and the integer constants of the
    script). *)
Class Number (N : Type) : Type := {
  add : N -> N -> N;
  sub : N -> N -> N;
  mul : N -> N -> N;
  div : N -> N -> N;
  lt : N -> N -> bool;
  le : N -> N -> bool;
  of_Z : Z -> N
}.

(** Exact rationals. *)
#[global] Instance rational : Number Q | 0 := {
  add := Qplus;
  sub := Qminus;
  mul := Qmult;
  div := Qdiv;
  lt a b := negb (Qle_bool b a);
  le := Qle_bool;
  of_Z := inject_Z
}.

(** An integer as a double: the double nearest to it.  (For integers
    below [2^63] in size, as the readings of the clock and the constants
    of the script are.) *)
Definition double_of_Z (z : Z) : float :=
  if (z <? 0)%Z then PrimFloat.opp (PrimFloat.of_uint63 (Uint63.of_Z (- z)))
  else PrimFloat.of_uint63 (Uint63.of_Z z).

(** IEEE doubles: every operation rounds to the nearest double, ties to
    even, and a comparison with NaN is false. *)
#[global] Instance double : Number float | 10 := {
  add := PrimFloat.add;
  sub := PrimFloat.sub;
  mul := PrimFloat.mul;
  div := PrimFloat.div;
  lt := PrimFloat.ltb;
  le := PrimFloat.leb;
  of_Z := double_of_Z
}.

(** [a >= b] on numbers: Lua evaluates it as [b <= a]. *)
Definition ge {N} `{Number N} (a b : N) : bool := le b a.

(** [math.min(a, b)]: the running minimum starts at the first argument
    and is replaced by a later one only when that one is strictly
    smaller. *)
Definition math_min {N} `{Number N} (a b : N) : N := if lt b a then b else a.

End Lua.

(* ===================================================================== *)
(** * The Redis server, as far as the script uses it *)
(* ===================================================================== *)

Module Redis.

(** The value of a hash field is a string.  What the script does with it
    is [tonumber]: the string either reads as a number or it does not.  A
    number written by [hmset] is written with enough digits to read back
    as the same number. *)
Inductive bulk (N : Type) : Type :=
| Numeric (x : N)
| Text (s : string).

Arguments Numeric {N} x.
Arguments Text {N} s.

(** A key of the keyspace holding a hash, with its time to live in
    seconds ([None]: the key does not expire).  Keys of other types are
    not modelled: on such a key [hmget] fails and the script with it. *)
Record entry (N : Type) : Type := Entry {
  hash : gmap string (bulk N);
  ttl : option Z
}.

Arguments Entry {N} hash ttl.
Arguments hash {N} e.
Arguments ttl {N} e.

(** The commands a script may run; the server records the ones it
    executed.  [DEL] is among them so that saying that the limiter never
    deletes means something. *)
Inductive command (N : Type) : Type :=
| TIME
| HMGET (key : string) (fields : list string)
| HMSET (key : string) (pairs : list (string * bulk N))
| EXPIRE (key : string) (seconds : Z)
| DEL (key : string).

Arguments TIME {N}.
Arguments HMGET {N} key fields.
Arguments HMSET {N} key pairs.
Arguments EXPIRE {N} key seconds.
Arguments DEL {N} key.

(** [clock] is what [TIME] answers: seconds and microseconds. *)
Record server (N : Type) : Type := Server {
  clock : Z * Z;
  db : gmap string (entry N);
  calls : list (command N)
}.

Arguments Server {N} clock db calls.
Arguments clock {N} s.
Arguments db {N} s.
Arguments calls {N} s.

(** A script is a state transformer on the server. *)
Definition script (N A : Type) : Type := server N -> A * server N.

Definition ret {N A} (a : A) : script N A := fun s => (a, s).

Definition bind {N A B} (m : script N A) (k : A -> script N B) : script N B :=
  fun s => let (a, s') := m s in k a s'.

Definition record {N} (c : command N) (s : server N) : server N :=
  {| clock := clock s; db := db s; calls := calls s ++ [c] |}.

Definition set_db {N} (d : gmap string (entry N)) (s : server N) : server N :=
  {| clock := clock s; db := d; calls := calls s |}.

Definition set_clock {N} (t : Z * Z) (s : server N) : server N :=
  {| clock := t; db := db s; calls := calls s |}.

(** [redis.call('TIME')] *)
Definition call_TIME {N} : script N (Z * Z) :=
  fun s => (clock s, record TIME s).

(** [redis.call('hmget', key, f1, f2)]: the two fields, [None] for a
    field or a key that does not exist. *)
Definition call_HMGET {N} (key f1 f2 : string)
  : script N (option (bulk N) * option (bulk N)) :=
  fun s =>
    let h := match db s !! key with
             | Some e => hash e
             | None => ∅
             end in
    ((h !! f1, h !! f2), record (HMGET key [f1; f2]) s).

(** [redis.call('hmset', key, f1, v1, f2, v2)]: creates the hash when the
    key is absent, overwrites the two fields, keeps the other fields and
    the time to live. *)
Definition call_HMSET {N} (key f1 : string) (v1 : bulk N) (f2 : string)
  (v2 : bulk N) : script N unit :=
  fun s =>
    let e := match db s !! key with
             | Some e => e
             | None => {| hash := ∅; ttl := None |}
             end in
    let e' := {| hash := <[f2 := v2]> (<[f1 := v1]> (hash e));
                 ttl := ttl e |} in
    (tt, record (HMSET key [(f1, v1); (f2, v2)]) (set_db (<[key := e']> (db s)) s)).

(** [redis.call('expire', key, seconds)]: sets the time to live of an
    existing key and answers 1, answers 0 for an absent key. *)
Definition call_EXPIRE {N} (key : string) (seconds : Z) : script N Z :=
  fun s =>
    match db s !! key with
    | Some e =>
        (1, record (EXPIRE key seconds)
              (set_db (<[key := {| hash := hash e; ttl := Some seconds |}]> (db s)) s))
    | None => (0, record (EXPIRE key seconds) s)
    end.

(** [tonumber] on what [hmget] answered: [nil] for a missing field and
    for a string that is not a number. *)
Definition tonumber {N} (v : option (bulk N)) : option N :=
  match v with
  | Some (Numeric x) => Some x
  | _ => None
  end.

End Redis.

Import Redis.

Notation "'local' x <- m ; k" := (Redis.bind m (fun x => k))
  (at level 10, x name, m at level 100, k at level 200, only parsing).

(* ===================================================================== *)
(** * The token-bucket script *)
(* ===================================================================== *)

Section Script.

Context {N : Type} `{Lua.Number N}.

(** [tonumber(time_result[1]) + (tonumber(time_result[2]) / 1000000)] *)
Definition current_time_of (time_result : Z * Z) : N :=
  Lua.add (Lua.of_Z (fst time_result))
          (Lua.div (Lua.of_Z (snd time_result)) (Lua.of_Z 1000000)).

(** [RedisRateLimiter._LUA_SCRIPT].  [key] is [KEYS[1]];
    [max_bucket_size] and [requests_per_second] are [tonumber(ARGV[1])]
    and [tonumber(ARGV[2])].  The reply is the integer the script
    returns. *)
Definition _LUA_SCRIPT (key : string) (max_bucket_size requests_per_second : N)
  : script N Z :=
  local time_result <- call_TIME;
  let current_time := current_time_of time_result in
  local bucket <- call_HMGET key "tokens" "last_refill";
  let tokens := tonumber (fst bucket) in
  let last_refill := tonumber (snd bucket) in
  let '(tokens, last_refill) :=
    match tokens, last_refill with
    | Some tokens, Some last_refill => (tokens, last_refill)
    | _, _ => (max_bucket_size, current_time)
    end in
  let elapsed := Lua.sub current_time last_refill in
  let elapsed := if Lua.lt elapsed (Lua.of_Z 0) then Lua.of_Z 0 else elapsed in
  let refill := Lua.mul elapsed requests_per_second in
  let tokens := Lua.math_min max_bucket_size (Lua.add tokens refill) in
  let last_refill := current_time in
  if Lua.ge tokens (Lua.of_Z 1) then
    let tokens := Lua.sub tokens (Lua.of_Z 1) in
    local _ <- call_HMSET key "tokens" (Numeric tokens) "last_refill" (Numeric last_refill);
    local _ <- call_EXPIRE key 86400;
    ret 1
  else
    local _ <- call_HMSET key "tokens" (Numeric tokens) "last_refill" (Numeric last_refill);
    local _ <- call_EXPIRE key 86400;
    ret 0.

End Script.

(* ===================================================================== *)
(** * The acquisition client *)
(* ===================================================================== *)

(** The attributes [__init__] stores.  The two Redis clients it also
    creates live in the world the client runs in (see [Runtime]). *)
Record RedisRateLimiter : Type := {
  redis_url : string;
  key_prefix : string;
  requests_per_second : Q;
  check_every_n_seconds : Q;
  max_bucket_size : Q
}.

(** What the client calls: [eval] on its synchronous and on its
    asynchronous Redis client (script [_LUA_SCRIPT], then the number of
    keys, the key and the two arguments), and the two ways of waiting:
    [block_thread] is what [time.sleep] does once it has accepted its
    argument, [asyncio_sleep] is [asyncio.sleep].  [W] is the state of the
    world these act on. *)
Class Runtime (W : Type) : Type := {
  client_eval : Z -> string -> Q -> Q -> W -> Z * W;
  async_client_eval : Z -> string -> Q -> Q -> W -> Z * W;
  block_thread : Q -> W -> W;
  asyncio_sleep : Q -> W -> W
}.

(** A call returns a value or raises. *)
Inductive exception : Type :=
| ValueError.

Inductive outcome : Type :=
| Returns (value : bool)
| Raises (e : exception).

(** Python's [bool] on the integer reply. *)
Definition py_bool (reply : Z) : bool := negb (reply =? 0)%Z.

Section Client.

Context {W : Type} `{Runtime W}.

(** [f"{self.key_prefix}:rate_limit"] *)
Definition bucket_key (self : RedisRateLimiter) : string :=
  (key_prefix self ++ ":rate_limit")%string.

Definition _execute_lua (self : RedisRateLimiter) (w : W) : Z * W :=
  let key := bucket_key self in
  client_eval 1 key (max_bucket_size self) (requests_per_second self) w.

Definition _execute_lua_async (self : RedisRateLimiter) (w : W) : Z * W :=
  let key := bucket_key self in
  async_client_eval 1 key (max_bucket_size self) (requests_per_second self) w.

Definition _consume (self : RedisRateLimiter) (w : W) : bool * W :=
  let (reply, w') := _execute_lua self w in (py_bool reply, w').

Definition _aconsume (self : RedisRateLimiter) (w : W) : bool * W :=
  let (reply, w') := _execute_lua_async self w in (py_bool reply, w').

(** [time.sleep(secs)] checks its argument before it does anything else:
    a negative one is a [ValueError] (sleep length must be non-negative).
    [asyncio.sleep] has no such check. *)
Definition time_sleep (secs : Q) (w : W) : exception + W :=
  if Qle_bool 0 secs then inr (block_thread secs w) else inl ValueError.

(** [while not self._consume(): time.sleep(self.check_every_n_seconds)]
    followed by [return True].  The loop of the source has no bound.
    [fuel] bounds the number of times its condition is evaluated: the
    result is [None], next to the world as it is by then, when the loop is
    still running after that many evaluations.  An exception of
    [time.sleep] is not caught: it ends the call. *)
Fixpoint acquire_loop (fuel : nat) (self : RedisRateLimiter) (w : W)
  : option outcome * W :=
  match fuel with
  | O => (None, w)
  | S fuel' =>
      let (granted, w') := _consume self w in
      if negb granted
      then match time_sleep (check_every_n_seconds self) w' with
           | inr w'' => acquire_loop fuel' self w''
           | inl e => (Some (Raises e), w')
           end
      else (Some (Returns true), w')
  end.

Definition acquire (fuel : nat) (self : RedisRateLimiter) (blocking : bool)
  (w : W) : option outcome * W :=
  if negb blocking then
    let (granted, w') := _consume self w in (Some (Returns granted), w')
  else acquire_loop fuel self w.

(** [while not await self._aconsume(): await asyncio.sleep(...)]
    followed by [return True]: nothing here raises. *)
Fixpoint aacquire_loop (fuel : nat) (self : RedisRateLimiter) (w : W)
  : option bool * W :=
  match fuel with
  | O => (None, w)
  | S fuel' =>
      let (granted, w') := _aconsume self w in
      if negb granted
      then aacquire_loop fuel' self (asyncio_sleep (check_every_n_seconds self) w')
      else (Some true, w')
  end.

Definition aacquire (fuel : nat) (self : RedisRateLimiter) (blocking : bool)
  (w : W) : option bool * W :=
  if negb blocking then
    let (granted, w') := _aconsume self w in (Some granted, w')
  else aacquire_loop fuel self w.

End Client.

(* ===================================================================== *)
(** * Two worlds the client runs in *)
(* ===================================================================== *)

(** ** Scripted replies, every call recorded

    The world of the unit tests: [eval] of either client answers the next
    value of a prescribed sequence, and every call is written down with
    its arguments.  A call of [time.sleep] is written down when
    [time.sleep] has accepted its argument. *)

Module Mock.

Inductive call : Type :=
| eval_call (numkeys : Z) (key : string) (argv1 argv2 : Q)
| aeval_call (numkeys : Z) (key : string) (argv1 argv2 : Q)
| sleep_call (seconds : Q)
| asleep_call (seconds : Q).

Record world : Type := World {
  side_effect : nat -> Z;        (* replies of the synchronous client *)
  aside_effect : nat -> Z;       (* replies of the asynchronous client *)
  call_count : nat;              (* synchronous [eval] calls so far *)
  await_count : nat;             (* asynchronous [eval] calls so far *)
  mock_calls : list call
}.

Definition start (sync async : nat -> Z) : world :=
  {| side_effect := sync; aside_effect := async;
     call_count := 0; await_count := 0; mock_calls := [] |}.

Definition eval (numkeys : Z) (key : string) (a1 a2 : Q) (w : world)
  : Z * world :=
  (side_effect w (call_count w),
   {| side_effect := side_effect w; aside_effect := aside_effect w;
      call_count := S (call_count w); await_count := await_count w;
      mock_calls := mock_calls w ++ [eval_call numkeys key a1 a2] |}).

Definition aeval (numkeys : Z) (key : string) (a1 a2 : Q) (w : world)
  : Z * world :=
  (aside_effect w (await_count w),
   {| side_effect := side_effect w; aside_effect := aside_effect w;
      call_count := call_count w; await_count := S (await_count w);
      mock_calls := mock_calls w ++ [aeval_call numkeys key a1 a2] |}).

Definition note (c : call) (w : world) : world :=
  {| side_effect := side_effect w; aside_effect := aside_effect w;
     call_count := call_count w; await_count := await_count w;
     mock_calls := mock_calls w ++ [c] |}.

#[global] Instance runtime : Runtime world := {
  client_eval := eval;
  async_client_eval := aeval;
  block_thread d := note (sleep_call d);
  asyncio_sleep d := note (asleep_call d)
}.

(** The asynchronous counterpart of a call. *)
Definition asyncify (c : call) : call :=
  match c with
  | eval_call n k a1 a2 => aeval_call n k a1 a2
  | sleep_call d => asleep_call d
  | c => c
  end.

End Mock.

(** ** A Redis server

    Both clients talk to the one server at [redis_url]: [eval] runs the
    script there, on the bucket key, which holds a hash or is absent.
    Sleeping lets the clock of the server move on by the time slept,
    counted in whole microseconds; [asyncio.sleep] with a delay that is
    not positive returns at once.  The numbers of this server are exact:
    it serves statements about which keys are touched and about buckets of
    a whole number of tokens, on which rounding has no bearing. *)

Module Live.

Definition advance (seconds : Q) (t : Z * Z) : Z * Z :=
  let usec := fst t * 1000000 + snd t + Qfloor (seconds * 1000000)%Q in
  (usec / 1000000, usec mod 1000000).

Definition sleep (seconds : Q) (s : server Q) : server Q :=
  set_clock (advance seconds (clock s)) s.

#[global] Instance runtime : Runtime (server Q) := {
  client_eval _ key a1 a2 := _LUA_SCRIPT key a1 a2;
  async_client_eval _ key a1 a2 := _LUA_SCRIPT key a1 a2;
  block_thread := sleep;
  asyncio_sleep seconds s := if Qle_bool seconds 0 then s else sleep seconds s
}.

End Live.

(* ===================================================================== *)
(** * Vocabulary of the statements *)
(* ===================================================================== *)

(** The bucket of [key] as the script reads it: both fields present and
    numeric, or nothing. *)
Definition stored {N} (d : gmap string (entry N)) (key : string) : option (N * N) :=
  match d !! key with
  | Some e =>
      match tonumber (hash e !! "tokens"), tonumber (hash e !! "last_refill") with
      | Some tokens, Some last_refill => Some (tokens, last_refill)
      | _, _ => None
      end
  | None => None
  end.

(** The fields of [key] before the script writes. *)
Definition fields_of {N} (d : gmap string (entry N)) (key : string)
  : gmap string (bulk N) :=
  match d !! key with Some e => hash e | None => ∅ end.

(** The value of [tokens] when the script reaches [if tokens >= 1]. *)
Definition refilled {N} `{Lua.Number N} (b : option (N * N)) (now max rps : N)
  : N :=
  let '(tokens, last_refill) :=
    match b with Some b => b | None => (max, now) end in
  let elapsed := Lua.sub now last_refill in
  let elapsed := if Lua.lt elapsed (Lua.of_Z 0) then Lua.of_Z 0 else elapsed in
  Lua.math_min max (Lua.add tokens (Lua.mul elapsed rps)).

(** The value of [tokens] the script writes. *)
Definition debited {N} `{Lua.Number N} (tokens : N) : N :=
  if Lua.ge tokens (Lua.of_Z 1) then Lua.sub tokens (Lua.of_Z 1) else tokens.

(** The update of the bucket in the words of the specification: the stored
    pair, or a full bucket refilled now when nothing is stored; the elapsed
    time clamped at zero; the refill capped at the size of the bucket. *)
Definition spec_tokens (b : option (Q * Q)) (current_time max_bucket_size
  requests_per_second : Q) : Q :=
  let tokens := match b with Some (tokens, _) => tokens | None => max_bucket_size end in
  let last_refill := match b with Some (_, l) => l | None => current_time end in
  let elapsed := Qmax 0 (current_time - last_refill) in
  Qmin max_bucket_size (tokens + elapsed * requests_per_second).

(** What happens to the bucket of a key over time: the script is executed
    while the clock of the server reads [time_result] (any reading, later
    or earlier than the one before), or the server drops the key because
    its time to live is over.  When the time to live of a key is over is
    for the history to say: a history may drop the key at any point, and
    drops it nowhere else. *)
Inductive occurrence : Type :=
| Execute (time_result : Z * Z)
| Expired.

(** The replies of the executions of a history, in order, and the server
    after it. *)
Fixpoint run {N} `{Lua.Number N} (key : string) (max rps : N)
  (h : list occurrence) (s : server N) : list Z * server N :=
  match h with
  | [] => ([], s)
  | Execute t :: h' =>
      let (reply, s1) := _LUA_SCRIPT key max rps (set_clock t s) in
      let (replies, s2) := run key max rps h' s1 in
      (reply :: replies, s2)
  | Expired :: h' => run key max rps h' (set_db (delete key (db s)) s)
  end.

(** A server that has never seen the key. *)
Definition fresh_server {N} : server N :=
  {| clock := (0, 0); db := ∅; calls := [] |}.

(** The stored bucket, if any, holds no negative number of tokens. *)
Definition not_overdrawn (d : gmap string (entry Q)) (key : string) : Prop :=
  match stored d key with
  | Some (tokens, _) => (0 <= tokens)%Q
  | None => True
  end.

(** The number [j] as a Lua number. *)
Definition Qnat (j : nat) : Q := inject_Z (Z.of_nat j).

(** The number [j] as a double. *)
Definition Dnat (j : nat) : float := Lua.double_of_Z (Z.of_nat j).

(** A whole number [p] of [d <= 53] binary digits in the terms of the
    specification of doubles: the mantissa [p * 2^(53-d)], of 53 digits,
    at the exponent [d - 53]. *)
Definition mantissa (p : positive) : positive :=
  match (Zpos (digits2_pos p) - 53)%Z with
  | Zneg n => Pos.iter xO p n
  | _ => p
  end.

Definition normal_form (p : positive) : spec_float :=
  S754_finite false (mantissa p) (Zpos (digits2_pos p) - 53).

Definition SFnat (j : nat) : spec_float :=
  match j with
  | O => S754_zero false
  | S _ => normal_form (Pos.of_nat j)
  end.

(** The server holds [tokens] tokens for [key], refilled at the reading
    [t], in a bucket of size [max]: either stored so, or not stored at all
    with [tokens] the size of the bucket. *)
Definition holds (key : string) (max : Q) (t : Z * Z) (tokens : Q)
  (s : server Q) : Prop :=
  (stored (db s) key = None /\ (tokens == max)%Q) \/
  (exists tokens' last_refill,
      stored (db s) key = Some (tokens', last_refill) /\
      (tokens' == tokens)%Q /\ (last_refill == current_time_of t)%Q /\
      (tokens <= max)%Q).

(** The same on doubles, for whole numbers of tokens: [j] tokens in a
    bucket of size [M], refilled at the reading [t]. *)
Definition holds_on_doubles (key : string) (M : nat) (t : Z * Z) (j : nat)
  (s : server float) : Prop :=
  (stored (db s) key = None /\ j = M) \/
  (stored (db s) key = Some (Dnat j, current_time_of t) /\ (j <= M)%nat).

(** A server whose only key is [key], holding the given bucket. *)
Definition server_holding {N} (key : string) (tokens last_refill : N)
  (t : Z * Z) : server N :=
  {| clock := t;
     db := {[ key := {| hash := {[ "tokens" := Numeric tokens;
                                   "last_refill" := Numeric last_refill ]};
                        ttl := Some 86400 |} ]};
     calls := [] |}.

Definition is_write {N} (c : command N) : bool :=
  match c with HMSET _ _ => true | _ => false end.

Definition is_delete {N} (c : command N) : bool :=
  match c with DEL _ => true | _ => false end.

(** The one call an attempt makes on the synchronous client, and the wait
    between two attempts. *)
Definition attempt (self : RedisRateLimiter) : Mock.call :=
  Mock.eval_call 1 (key_prefix self ++ ":rate_limit")%string
    (max_bucket_size self) (requests_per_second self).

Definition pause (self : RedisRateLimiter) : Mock.call :=
  Mock.sleep_call (check_every_n_seconds self).

(** The world after one synchronous attempt, and after the wait that
    follows a denied one. *)
Definition attempted (self : RedisRateLimiter) (w : Mock.world) : Mock.world :=
  snd (Mock.eval 1 (bucket_key self) (max_bucket_size self)
         (requests_per_second self) w).

Definition paused (self : RedisRateLimiter) (w : Mock.world) : Mock.world :=
  Mock.note (pause self) (attempted self w).

(** The same for the asynchronous client. *)
Definition aattempted (self : RedisRateLimiter) (w : Mock.world) : Mock.world :=
  snd (Mock.aeval 1 (bucket_key self) (max_bucket_size self)
         (requests_per_second self) w).

Definition apaused (self : RedisRateLimiter) (w : Mock.world) : Mock.world :=
  Mock.note (Mock.asyncify (pause self)) (aattempted self w).

(** [n] denied attempts, each followed by a wait: the calls they make and
    the world after them. *)
Definition polls (self : RedisRateLimiter) (n : nat) : list Mock.call :=
  concat (repeat [attempt self; pause self] n).

Fixpoint after_polls (self : RedisRateLimiter) (n : nat) (w : Mock.world)
  : Mock.world :=
  match n with
  | O => w
  | S n' => after_polls self n' (paused self w)
  end.

(** The limiter and the replies of the test of the blocking call: default
    configuration, a denial and then a grant. *)
Definition default_limiter : RedisRateLimiter :=
  {| redis_url := "redis://localhost:6379";
     key_prefix := "langchain_limiter";
     requests_per_second := 1;
     check_every_n_seconds := 1 # 10;
     max_bucket_size := 1 |}.

Definition replies_of (l : list Z) : nat -> Z := fun k => nth k l 1.



(** The key of every [eval] call recorded in [cs] is [key]. *)
Definition all_on_key (key : string) (cs : list Mock.call) : Prop :=
  Forall (fun c => match c with
                   | Mock.eval_call _ k _ _ | Mock.aeval_call _ k _ _ => k = key
                   | _ => True
                   end) cs.

(** The calls a world has recorded since [w]. *)
Definition calls_since (w w' : Mock.world) (cs : list Mock.call) : Prop :=
  Mock.mock_calls w' = Mock.mock_calls w ++ cs.

(** Two servers tell the same time and hold the same under [key]. *)
Definition agree_on (key : string) (s1 s2 : server Q) : Prop :=
  clock s1 = clock s2 /\ db s1 !! key = db s2 !! key.

(** The two limiters of the test of separate keys. *)
Definition limiter_with_prefix (prefix : string) : RedisRateLimiter :=
  {| redis_url := "redis://localhost:6379";
     key_prefix := prefix;
     requests_per_second := 1;
     check_every_n_seconds := 1 # 10;
     max_bucket_size := 1 |}.

(** ** Vocabulary of the further properties *)

(** The script cannot read a bucket under [key]: the key is absent, or one
    of the two fields is missing or is not a number. *)
Definition unreadable {N} (d : gmap string (entry N)) (key : string) : Prop :=
  d !! key = None \/
  exists e, d !! key = Some e /\
            (tonumber (hash e !! "tokens") = None \/
             tonumber (hash e !! "last_refill") = None).

(** Callers, each with a limiter of its own, make one non-blocking
    [acquire] each, one after the other, on one Redis server. *)
Fixpoint acquire_each (callers : list RedisRateLimiter) (s : server Q)
  : list (option outcome) * server Q :=
  match callers with
  | [] => ([], s)
  | self :: callers' =>
      let (result, s1) := acquire 0 self false s in
      let (results, s2) := acquire_each callers' s1 in
      (result :: results, s2)
  end.

(** The calls of the synchronous side, and of the asynchronous side. *)
Definition is_sync_call (c : Mock.call) : Prop :=
  match c with
  | Mock.eval_call _ _ _ _ | Mock.sleep_call _ => True
  | _ => False
  end.

Definition is_async_call (c : Mock.call) : Prop :=
  match c with
  | Mock.aeval_call _ _ _ _ | Mock.asleep_call _ => True
  | _ => False
  end.

(** A server whose only key holds a [tokens] field that is not a number,
    next to a [last_refill] from long ago. *)
Definition server_with_garbled_tokens : server float :=
  {| clock := (200, 0);
     db := {[ "app:rate_limit" :=
                {| hash := {[ "tokens" := Text "many";
                              "last_refill" := Numeric 100%float ]};
                   ttl := None |} ]};
     calls := [] |}.

(** Three callers with one prefix and one size of bucket, and otherwise
    different settings. *)
Definition shared_callers : list RedisRateLimiter :=
  [ {| redis_url := "redis://a:6379"; key_prefix := "shared";
       requests_per_second := 1; check_every_n_seconds := 1 # 10;
       max_bucket_size := Qnat 2 |};
    {| redis_url := "redis://a:6379"; key_prefix := "shared";
       requests_per_second := 5; check_every_n_seconds := 1;
       max_bucket_size := Qnat 2 |};
    {| redis_url := "redis://a:6379"; key_prefix := "shared";
       requests_per_second := 1 # 2; check_every_n_seconds := 1 # 2;
       max_bucket_size := Qnat 2 |} ].

(** The world after [n] polls of the asynchronous call. *)
Fixpoint after_apolls (self : RedisRateLimiter) (n : nat) (w : Mock.world)
  : Mock.world :=
  match n with
  | O => w
  | S n' => after_apolls self n' (apaused self w)
  end.

(** [RedisRateLimiter.__init__]: the keyword arguments, [None] for one
    that is left out and takes its default.  The two clients it creates
    with [redis.from_url] are the ones of the world the limiter runs in. *)
Definition __init__ (redis_url : string) (key_prefix : option string)
  (requests_per_second check_every_n_seconds max_bucket_size : option Q)
  : RedisRateLimiter :=
  {| redis_url := redis_url;
     key_prefix := match key_prefix with Some p => p | None => "langchain_limiter" end;
     requests_per_second :=
       match requests_per_second with Some r => r | None => 1%Q end;
     check_every_n_seconds :=
       match check_every_n_seconds with Some c => c | None => (1 # 10)%Q end;
     max_bucket_size :=
       match max_bucket_size with Some m => m | None => 1%Q end |}.

(** Limiters built for one URL without [key_prefix] and
    [max_bucket_size], one for each given rate and polling interval. *)
Definition built_with_defaults (url : string)
  (settings : list (option Q * option Q)) : list RedisRateLimiter :=
  map (fun '(rps, check) => __init__ url None rps check None) settings.


(* ===================================================================== *)
(** * What one execution of the script does *)
(* ===================================================================== *)

(** Reading the operations of the script on exact numbers. *)
Ltac exact_numbers :=
  change (@Lua.of_Z Q Lua.rational 0) with 0%Q in *;
  change (@Lua.of_Z Q Lua.rational 1) with 1%Q in *;
  change (@Lua.of_Z Q Lua.rational 1000000) with 1000000%Q in *;
  cbn [Lua.add Lua.sub Lua.mul Lua.div Lua.of_Z Lua.rational] in *.

Ltac exact_comparisons := cbn [Lua.lt Lua.le Lua.rational] in *.

(** Reading them on doubles. *)
Ltac double_numbers :=
  cbn [Lua.add Lua.sub Lua.mul Lua.div Lua.lt Lua.le Lua.of_Z Lua.double] in *;
  change (Lua.double_of_Z 0) with 0%float in *;
  change (Lua.double_of_Z 1) with 1%float in *.

Section OneExecution.

Context {N : Type} `{Lua.Number N}.

(** The script in one equation: its reply, the entry it leaves under the
    key and the commands it has run, in either number system. *)
Lemma script_run key (max rps : N) (s : server N) :
  let now := current_time_of (clock s) in
  let tokens := refilled (stored (db s) key) now max rps in
  let written := [("tokens", Numeric (debited tokens)); ("last_refill", Numeric now)] in
  _LUA_SCRIPT key max rps s =
    (if Lua.ge tokens (Lua.of_Z 1) then 1 else 0,
     {| clock := clock s;
        db := <[key := {| hash := <["last_refill" := Numeric now]>
                                   (<["tokens" := Numeric (debited tokens)]>
                                      (fields_of (db s) key));
                          ttl := Some 86400 |}]> (db s);
        calls := calls s ++ [TIME; HMGET key ["tokens"; "last_refill"];
                             HMSET key written; EXPIRE key 86400] |}).
Proof.
  cbv zeta.
  assert (Hread : forall d : gmap string (entry N),
    match tonumber (fields_of d key !! "tokens"),
          tonumber (fields_of d key !! "last_refill") with
    | Some t, Some l => Some (t, l)
    | _, _ => None
    end = stored d key).
  { intros d. unfold stored, fields_of. destruct (d !! key); [reflexivity|].
    rewrite !lookup_empty. reflexivity. }
  unfold _LUA_SCRIPT, Redis.bind, call_TIME, call_HMGET. cbn [fst snd record db clock calls].
  fold (fields_of (db s) key). rewrite <- (Hread (db s)).
  set (now := current_time_of (clock s)).
  assert (Hwrite : forall (tk : N) (reply : Z),
    (let (_, s') := call_HMSET key "tokens" (Numeric tk) "last_refill" (Numeric now)
                      (record (HMGET key ["tokens"; "last_refill"]) (record TIME s)) in
     let (_, s'') := call_EXPIRE key 86400 s' in ret reply s'') =
    (reply,
    {| clock := clock s;
       db := <[key := {| hash := <["last_refill" := Numeric now]>
                                  (<["tokens" := Numeric tk]> (fields_of (db s) key));
                         ttl := Some 86400 |}]> (db s);
       calls := calls s ++ [TIME; HMGET key ["tokens"; "last_refill"];
                            HMSET key [("tokens", Numeric tk); ("last_refill", Numeric now)];
                            EXPIRE key 86400] |})).
  { intros tk reply. unfold call_HMSET, call_EXPIRE, ret, record, set_db.
    cbn [db clock calls].
    rewrite lookup_insert_eq. cbn [hash ttl]. rewrite insert_insert_eq.
    rewrite <- !app_assoc. cbn [app]. unfold fields_of.
    destruct (db s !! key); reflexivity. }
  unfold refilled, debited.
  destruct (tonumber (fields_of (db s) key !! "tokens")) as [t|];
    destruct (tonumber (fields_of (db s) key !! "last_refill")) as [l|];
    cbv zeta;
    match goal with |- context [Lua.ge ?x ?y] => destruct (Lua.ge x y) eqn:Hge end;
    apply Hwrite.
Qed.

(** ** Reply, stored bucket and frame of one execution *)

Lemma script_reply key (max rps : N) (s : server N) :
  fst (_LUA_SCRIPT key max rps s) =
  if Lua.ge (refilled (stored (db s) key) (current_time_of (clock s)) max rps)
            (Lua.of_Z 1)
  then 1 else 0.
Proof. rewrite script_run. reflexivity. Qed.

Lemma script_stored key (max rps : N) (s : server N) :
  stored (db (snd (_LUA_SCRIPT key max rps s))) key =
  Some (debited (refilled (stored (db s) key) (current_time_of (clock s)) max rps),
        current_time_of (clock s)).
Proof.
  rewrite script_run. cbn [snd db]. unfold stored.
  rewrite lookup_insert_eq. cbn [hash].
  rewrite lookup_insert_ne by discriminate.
  rewrite !lookup_insert_eq. reflexivity.
Qed.

Lemma script_clock key (max rps : N) (s : server N) :
  clock (snd (_LUA_SCRIPT key max rps s)) = clock s.
Proof. rewrite script_run. reflexivity. Qed.

Lemma script_frame key (max rps : N) (s : server N) (other : string) :
  other ≠ key ->
  db (snd (_LUA_SCRIPT key max rps s)) !! other = db s !! other.
Proof.
  intros Hne. rewrite script_run. cbn [snd db].
  apply lookup_insert_ne. congruence.
Qed.

End OneExecution.

(** ** Lua's comparisons and [math.min] on exact numbers *)

Lemma lua_ge_true (a b : Q) : Lua.ge a b = true <-> (b <= a)%Q.
Proof. unfold Lua.ge. apply Qle_bool_iff. Qed.

Lemma lua_ge_false (a b : Q) : Lua.ge a b = false <-> (a < b)%Q.
Proof.
  unfold Lua.ge. exact_comparisons. rewrite <- not_true_iff_false, Qle_bool_iff.
  split; [apply Qnot_le_lt | apply Qlt_not_le].
Qed.

Lemma lua_lt_true (a b : Q) : Lua.lt a b = true <-> (a < b)%Q.
Proof. exact_comparisons. rewrite negb_true_iff. apply lua_ge_false. Qed.

Lemma lua_lt_false (a b : Q) : Lua.lt a b = false <-> (b <= a)%Q.
Proof. exact_comparisons. rewrite negb_false_iff. apply lua_ge_true. Qed.

Lemma math_min_Qmin (a b : Q) : (Lua.math_min a b == Qmin a b)%Q.
Proof.
  unfold Lua.math_min. destruct (Lua.lt b a) eqn:E.
  - apply lua_lt_true in E. symmetry. apply Q.min_r. lra.
  - apply lua_lt_false in E. symmetry. apply Q.min_l. exact E.
Qed.

Lemma clamp_Qmax (x : Q) : ((if Lua.lt x 0%Q then 0 else x) == Qmax 0 x)%Q.
Proof.
  destruct (Lua.lt x 0%Q) eqn:E.
  - apply lua_lt_true in E. symmetry. apply Q.max_l. lra.
  - apply lua_lt_false in E. symmetry. apply Q.max_r. exact E.
Qed.

Lemma refilled_spec (b : option (Q * Q)) (now max rps : Q) :
  (refilled b now max rps == spec_tokens b now max rps)%Q.
Proof.
  unfold refilled, spec_tokens. destruct b as [[t l]|];
    rewrite math_min_Qmin; exact_numbers; rewrite clamp_Qmax; reflexivity.
Qed.

(** ** The update of the bucket, in the two number systems *)

(** On exact numbers the update is the one of the specification, with no
    proviso: the tokens after the refill are
    [min(max_bucket_size, tokens + max(0, current_time - last_refill) * requests_per_second)];
    at least 1 of them gives the reply 1 and exactly 1 less stored, less
    than 1 gives the reply 0 and all of them stored. *)
Lemma exact_script_refills_then_debits :
  forall (key : string) (max_bucket_size requests_per_second : Q) (s : server Q),
    let current_time := current_time_of (clock s) in
    let tokens :=
      spec_tokens (stored (db s) key) current_time max_bucket_size requests_per_second in
    let (reply, s') := _LUA_SCRIPT key max_bucket_size requests_per_second s in
    exists tokens' last_refill',
      stored (db s') key = Some (tokens', last_refill') /\
      (last_refill' == current_time)%Q /\
      (((1 <= tokens)%Q /\ reply = 1 /\ (tokens' == tokens - 1)%Q) \/
       ((tokens < 1)%Q /\ reply = 0 /\ (tokens' == tokens)%Q)).
Proof.
  intros key max rps s current_time tokens.
  pose proof (script_reply key max rps s) as Hr.
  pose proof (script_stored key max rps s) as Hs.
  destruct (_LUA_SCRIPT key max rps s) as [reply s']. cbn [fst snd] in Hr, Hs.
  pose proof (refilled_spec (stored (db s) key) current_time max rps) as Ht.
  fold current_time in Hr, Hs. fold tokens in Ht.
  eexists _, _. split; [exact Hs|]. split; [reflexivity|].
  unfold debited. exact_numbers.
  destruct (Lua.ge (refilled (stored (db s) key) current_time max rps) 1%Q) eqn:E.
  - left. apply lua_ge_true in E. rewrite Ht in E.
    split; [exact E|]. split; [exact Hr|]. rewrite Ht. reflexivity.
  - right. apply lua_ge_false in E. rewrite Ht in E.
    split; [exact E|]. split; [exact Hr|]. exact Ht.
Qed.

(** C1, as amended.  One execution of the script, from any server state,
    at any clock reading and for any configuration, every operation being
    the one of Lua on doubles (each rounds to the nearest double): with
    [tokens] and [last_refill] the stored pair (or [max_bucket_size] and
    the current time when the bucket cannot be read), [elapsed] is
    [current_time - last_refill], or 0 when that is below 0; the tokens
    become [tokens + elapsed * requests_per_second], or [max_bucket_size]
    when that is not below it; when they are at least 1 the reply is 1 and
    the double [tokens - 1] is stored, otherwise the reply is 0 and they
    are stored as they are; in both cases the current time is stored as
    [last_refill]. *)
Theorem script_refills_then_debits :
  forall (key : string) (max_bucket_size requests_per_second : float)
         (s : server float),
    let current_time := current_time_of (clock s) in
    let bucket :=
      match stored (db s) key with
      | Some bucket => bucket
      | None => (max_bucket_size, current_time)
      end in
    let elapsed := (current_time - snd bucket)%float in
    let elapsed := if (elapsed <? 0)%float then 0%float else elapsed in
    let refill := (elapsed * requests_per_second)%float in
    let tokens :=
      if (fst bucket + refill <? max_bucket_size)%float
      then (fst bucket + refill)%float
      else max_bucket_size in
    let (reply, s') := _LUA_SCRIPT key max_bucket_size requests_per_second s in
    reply = (if (1 <=? tokens)%float then 1 else 0) /\
    stored (db s') key =
      Some (if (1 <=? tokens)%float then (tokens - 1)%float else tokens,
            current_time).
Proof.
  intros key max rps s. cbv zeta.
  pose proof (script_reply key max rps s) as Hr.
  pose proof (script_stored key max rps s) as Hs.
  destruct (_LUA_SCRIPT key max rps s) as [reply s']. cbn [fst snd] in Hr, Hs.
  rewrite Hr, Hs. unfold debited, refilled, Lua.math_min, Lua.ge.
  destruct (stored (db s) key) as [[tokens last_refill]|]; split; reflexivity.
Qed.

(** C1 as stated, with the arithmetic of the specification, fails on the
    doubles of Lua in both of its parts.  A bucket emptied at 100 s and
    asked again 0.1 s later at 10 requests per second holds one token by
    the specification and is granted on exact numbers; on doubles
    [100.1 - 100] is below [0.1], the refill is below 1 and the reply is 0.
    A bucket of [2^54] tokens grants and stores [2^54] tokens again: on
    doubles [2^54 - 1] is [2^54], nothing is debited. *)
Lemma debit_and_refill_lost_to_rounding :
  (fst (_LUA_SCRIPT "app:rate_limit" 1%Q 10%Q
          (server_holding "app:rate_limit" 0%Q 100%Q (100, 100000))) = 1 /\
   let (reply, s') :=
     _LUA_SCRIPT "app:rate_limit" 1%float 10%float
       (server_holding "app:rate_limit" 0%float 100%float (100, 100000)) in
   reply = 0 /\
   stored (db s') "app:rate_limit"
     = Some (0.99999999999994316%float, 100.09999999999999%float)) /\
  (let s := set_clock (100, 0) fresh_server in
   let (reply, s') :=
     _LUA_SCRIPT "app:rate_limit" 18014398509481984%float 1%float s in
   refilled (stored (db s) "app:rate_limit") (current_time_of (clock s))
            18014398509481984%float 1%float = 18014398509481984%float /\
   reply = 1 /\
   stored (db s') "app:rate_limit" = Some (18014398509481984%float, 100%float)).
Proof. vm_compute. repeat split. Qed.
(* ===================================================================== *)
(** * Sequences of executions on one key *)
(* ===================================================================== *)

Lemma run_app key max rps h1 h2 s :
  run key max rps (h1 ++ h2) s =
  let (r1, s1) := run key max rps h1 s in
  let (r2, s2) := run key max rps h2 s1 in
  (r1 ++ r2, s2).
Proof.
  revert s. induction h1 as [|[t|] h1 IH]; intros s; cbn [run app].
  - destruct (run key max rps h2 s). reflexivity.
  - destruct (_LUA_SCRIPT key max rps (set_clock t s)) as [r s1].
    rewrite IH. destruct (run key max rps h1 s1) as [r1 s1'].
    destruct (run key max rps h2 s1'). reflexivity.
  - apply IH.
Qed.

Lemma refilled_le_max b now max rps : (refilled b now max rps <= max)%Q.
Proof. rewrite refilled_spec. apply Q.le_min_l. Qed.

Lemma refilled_nonneg b now max rps :
  (0 <= max)%Q -> (0 <= rps)%Q ->
  match b with Some (tokens, _) => (0 <= tokens)%Q | None => True end ->
  (0 <= refilled b now max rps)%Q.
Proof.
  intros Hmax Hrps Hb. rewrite refilled_spec. unfold spec_tokens.
  apply Q.min_glb; [exact Hmax|].
  set (elapsed := Qmax 0 _).
  assert (0 <= elapsed * rps)%Q as Hrefill.
  { apply Qmult_le_0_compat; [apply Q.le_max_l | exact Hrps]. }
  destruct b as [[t l]|]; lra.
Qed.

Lemma debited_bounds (tokens max : Q) :
  (0 <= tokens)%Q -> (tokens <= max)%Q ->
  (0 <= debited tokens <= max)%Q.
Proof.
  intros H0 Hmax. unfold debited. exact_numbers.
  destruct (Lua.ge tokens 1%Q) eqn:E.
  - apply lua_ge_true in E. lra.
  - lra.
Qed.

(** One execution keeps the bucket within bounds. *)
Lemma script_keeps_bounds key max rps s :
  (0 <= max)%Q -> (0 <= rps)%Q -> not_overdrawn (db s) key ->
  exists tokens last_refill,
    stored (db (snd (_LUA_SCRIPT key max rps s))) key = Some (tokens, last_refill) /\
    (0 <= tokens <= max)%Q.
Proof.
  intros Hmax Hrps Hs. rewrite script_stored. eexists _, _. split; [reflexivity|].
  apply debited_bounds.
  - apply refilled_nonneg; assumption.
  - apply refilled_le_max.
Qed.

Lemma run_not_overdrawn key max rps h s :
  (0 <= max)%Q -> (0 <= rps)%Q -> not_overdrawn (db s) key ->
  not_overdrawn (db (snd (run key max rps h s))) key.
Proof.
  intros Hmax Hrps. revert s. induction h as [|[t|] h IH]; intros s Hs; cbn [run].
  - exact Hs.
  - destruct (_LUA_SCRIPT key max rps (set_clock t s)) as [r s1] eqn:E1.
    specialize (IH s1).
    destruct (run key max rps h s1) as [rs s2]. cbn [snd] in *. apply IH.
    destruct (script_keeps_bounds key max rps (set_clock t s) Hmax Hrps Hs)
      as (tk & lr & Hst & Hb).
    rewrite E1 in Hst. cbn [snd] in Hst. unfold not_overdrawn. rewrite Hst. lra.
  - apply IH. unfold not_overdrawn, stored. cbn [set_db db].
    rewrite lookup_delete_eq. exact I.
Qed.

(** No execution, whatever the configuration and the state before it,
    leaves more tokens than the bucket holds. *)
Lemma script_never_overfills key max rps s :
  exists tokens last_refill,
    stored (db (snd (_LUA_SCRIPT key max rps s))) key = Some (tokens, last_refill) /\
    (tokens <= max)%Q.
Proof.
  rewrite script_stored. eexists _, _. split; [reflexivity|].
  pose proof (refilled_le_max (stored (db s) key) (current_time_of (clock s)) max rps).
  unfold debited. exact_numbers. destruct (Lua.ge _ 1%Q); lra.
Qed.

(** C2, as amended.  With [max_bucket_size >= 0] and
    [requests_per_second >= 0], on a key that is absent or holds a
    non-negative number of tokens to begin with: after every execution of
    the script, whatever came before it (executions at any clock readings,
    forwards or backwards, and expirations of the key), the stored tokens
    are between 0 and [max_bucket_size]. *)
Theorem tokens_within_bounds :
  forall (key : string) (max_bucket_size requests_per_second : Q) (s : server Q)
         (h : list occurrence) (time_result : Z * Z),
    (0 <= max_bucket_size)%Q ->
    (0 <= requests_per_second)%Q ->
    not_overdrawn (db s) key ->
    exists tokens last_refill,
      stored (db (snd (run key max_bucket_size requests_per_second
                         (h ++ [Execute time_result]) s))) key
      = Some (tokens, last_refill) /\
      (0 <= tokens <= max_bucket_size)%Q.
Proof.
  intros key max rps s h t Hmax Hrps Hs.
  pose proof (run_not_overdrawn key max rps h s Hmax Hrps Hs) as Hh.
  rewrite run_app. destruct (run key max rps h s) as [r1 s1]. cbn [snd] in Hh.
  cbn [run].
  assert (not_overdrawn (db (set_clock t s1)) key) as Hs1 by exact Hh.
  destruct (script_keeps_bounds key max rps (set_clock t s1) Hmax Hrps Hs1)
    as (tk & lr & Hst & Hb).
  destruct (_LUA_SCRIPT key max rps (set_clock t s1)) as [r s2].
  cbn [snd] in *. exists tk, lr. split; assumption.
Qed.

Lemma tokens_within_bounds_witness :
  exists tokens last_refill,
    stored (db (snd (run "app:rate_limit" 2%Q (1 # 2)%Q
                       ([Execute (100, 0); Expired; Execute (90, 500000)]
                          ++ [Execute (4000, 250000)]) fresh_server)))
      "app:rate_limit" = Some (tokens, last_refill) /\
    (0 <= tokens <= 2)%Q.
Proof.
  apply (tokens_within_bounds "app:rate_limit" 2%Q (1 # 2)%Q fresh_server
           [Execute (100, 0); Expired; Execute (90, 500000)] (4000, 250000)).
  - vm_compute. discriminate.
  - vm_compute. discriminate.
  - exact I.
Defined.

(** C2 as stated fails: the constructor accepts a negative
    [max_bucket_size], and the first execution on a fresh key then stores
    that negative number as the tokens. *)
Lemma tokens_below_zero :
  let s := snd (run "app:rate_limit" (-1)%Q 1%Q [Execute (100, 0)] fresh_server) in
  exists tokens last_refill,
    stored (db s) "app:rate_limit" = Some (tokens, last_refill) /\
    ~ (0 <= tokens <= -1)%Q /\ (tokens < 0)%Q.
Proof.
  cbv zeta. cbn [run].
  pose proof (script_stored "app:rate_limit" (-1)%Q 1%Q (set_clock (100, 0) fresh_server)) as Hs.
  destruct (_LUA_SCRIPT "app:rate_limit" (-1)%Q 1%Q (set_clock (100, 0) fresh_server)) as [r s1].
  cbn [snd] in *. eexists _, _. split; [exact Hs|].
  vm_compute. split; [intros [H _]; apply H; reflexivity | reflexivity].
Qed.

(** A negative [requests_per_second] does the same to a bucket of size 5:
    ten seconds after the first debit the refill is [-10], and [-6] tokens
    are stored. *)
Example tokens_below_zero_by_refill :
  let s := snd (run "app:rate_limit" 5%Q (-1)%Q [Execute (100, 0); Execute (110, 0)]
                  fresh_server) in
  exists tokens last_refill,
    stored (db s) "app:rate_limit" = Some (tokens, last_refill) /\
    (tokens == -6)%Q.
Proof. cbv zeta. eexists _, _. split; vm_compute; reflexivity. Qed.

(** ** A burst on a fresh key *)

Lemma Qnat_S j : (Qnat (S j) == Qnat j + 1)%Q.
Proof. unfold Qnat. rewrite Nat2Z.inj_succ, <- Z.add_1_r, inject_Z_plus. reflexivity. Qed.

Lemma Qnat_le (i j : nat) : (i <= j)%nat -> (Qnat i <= Qnat j)%Q.
Proof. intros Hij. unfold Qnat. rewrite <- Zle_Qle. lia. Qed.

Lemma Qnat_nonneg (j : nat) : (0 <= Qnat j)%Q.
Proof. apply (Qnat_le 0 j). lia. Qed.

(** No time has passed since the last refill, or the clock has gone back:
    nothing is added. *)
Lemma refilled_no_elapsed tokens last_refill now max rps :
  (now <= last_refill)%Q -> (tokens <= max)%Q ->
  (refilled (Some (tokens, last_refill)) now max rps == tokens)%Q.
Proof.
  intros Hnow Hmax. rewrite refilled_spec. unfold spec_tokens.
  assert (Qmax 0 (now - last_refill) == 0)%Q as Hel by (apply Q.max_l; lra).
  assert (tokens + Qmax 0 (now - last_refill) * rps == tokens)%Q as Hsum.
  { rewrite Hel. ring. }
  rewrite (Q.min_r max _) by (rewrite Hsum; exact Hmax).
  exact Hsum.
Qed.

(** A bucket that is not stored counts as full. *)
Lemma refilled_absent now max rps : (refilled None now max rps == max)%Q.
Proof.
  rewrite refilled_spec. unfold spec_tokens.
  assert (now - now == 0)%Q as Hz by ring.
  assert (Qmax 0 (now - now) == 0)%Q as Hel by (apply Q.max_l; lra).
  assert (max + Qmax 0 (now - now) * rps == max)%Q as Hsum.
  { rewrite Hel. ring. }
  rewrite (Q.min_l max _) by (rewrite Hsum; lra). reflexivity.
Qed.

Lemma holds_refilled key max rps t tokens s :
  holds key max t tokens s ->
  (refilled (stored (db (set_clock t s)) key) (current_time_of t) max rps
   == tokens)%Q.
Proof.
  cbn [set_clock db].
  intros [[Hnone Hj] | (tk & lr & Hst & Htk & Hlr & Hle)]; rewrite ?Hnone, ?Hst.
  - rewrite refilled_absent. symmetry. exact Hj.
  - rewrite refilled_no_elapsed; [exact Htk | lra | lra].
Qed.

Lemma holds_eq key max t (tokens tokens' : Q) s :
  (tokens == tokens')%Q -> holds key max t tokens s -> holds key max t tokens' s.
Proof.
  intros Heq [[Hnone Hj] | (tk & lr & Hst & Htk & Hlr & Hle)].
  - left. split; [exact Hnone | lra].
  - right. exists tk, lr. split; [exact Hst|]. split; [lra|]. split; [exact Hlr | lra].
Qed.

Lemma lua_ge_eq (a a' b : Q) : (a == a')%Q -> Lua.ge a b = Lua.ge a' b.
Proof.
  intros Heq. destruct (Lua.ge a' b) eqn:E.
  - apply lua_ge_true in E. apply lua_ge_true. lra.
  - apply lua_ge_false in E. apply lua_ge_false. lra.
Qed.

(** An execution at the reading of the last refill takes one token when
    there is a whole one, and changes nothing else. *)
Lemma script_takes_one key max rps t tokens s :
  holds key max t tokens s ->
  let (reply, s') := _LUA_SCRIPT key max rps (set_clock t s) in
  reply = (if Lua.ge tokens 1%Q then 1 else 0) /\
  holds key max t (if Lua.ge tokens 1%Q then tokens - 1 else tokens)%Q s'.
Proof.
  intros Hj. pose proof (holds_refilled key max rps t tokens s Hj) as Href.
  assert (tokens <= max)%Q as Hle.
  { destruct Hj as [[_ Hj] | (_ & _ & _ & _ & _ & Hle)]; lra. }
  pose proof (script_reply key max rps (set_clock t s)) as Hr.
  pose proof (script_stored key max rps (set_clock t s)) as Hs.
  destruct (_LUA_SCRIPT key max rps (set_clock t s)) as [reply s'].
  cbn [fst snd set_clock clock db] in Hr, Hs. cbn [set_clock db] in Href.
  unfold debited in Hs. exact_numbers. rewrite (lua_ge_eq _ _ 1%Q Href) in Hr, Hs.
  split; [exact Hr|]. right. eexists _, _. split; [exact Hs|].
  destruct (Lua.ge tokens 1%Q) eqn:E.
  - apply lua_ge_true in E. split; [lra|]. split; [reflexivity|lra].
  - split; [exact Href|]. split; [reflexivity|exact Hle].
Qed.

Lemma burst_replies key max rps t n :
  forall (j : nat) s, holds key max t (Qnat j) s ->
    fst (run key max rps (repeat (Execute t) n) s) =
    repeat 1 (Nat.min n j) ++ repeat 0 (n - j).
Proof.
  induction n as [|n IH]; intros j s Hj; [reflexivity|].
  cbn [repeat run].
  pose proof (script_takes_one key max rps t (Qnat j) s Hj) as Hstep.
  destruct (_LUA_SCRIPT key max rps (set_clock t s)) as [reply s'].
  destruct Hstep as [Hreply Hj'].
  destruct j as [|j].
  - change (Lua.ge (Qnat 0) 1%Q) with false in Hreply, Hj'.
    specialize (IH _ _ Hj').
    destruct (run key max rps (repeat (Execute t) n) s') as [replies s''].
    cbn [fst] in *. rewrite Hreply, IH.
    cbn [Nat.min Nat.sub repeat app]. rewrite Nat.min_0_r, Nat.sub_0_r. reflexivity.
  - assert (Lua.ge (Qnat (S j)) 1%Q = true) as E.
    { apply lua_ge_true. rewrite Qnat_S. pose proof (Qnat_nonneg j). lra. }
    rewrite E in Hreply, Hj'.
    apply (holds_eq _ _ _ _ (Qnat j)) in Hj'; [|rewrite Qnat_S; ring].
    specialize (IH _ _ Hj').
    destruct (run key max rps (repeat (Execute t) n) s') as [replies s''].
    cbn [fst] in *. rewrite Hreply, IH. reflexivity.
Qed.

(** For any size of the bucket, whole or not: in a burst at one clock
    reading that starts with [tokens] tokens, the [(k+1)]-th execution
    replies 1 exactly when [k + 1 <= tokens]. *)
Lemma burst_reply_at key max rps t n :
  forall (tokens : Q) s (k : nat),
    holds key max t tokens s ->
    (k < n)%nat ->
    nth_error (fst (run key max rps (repeat (Execute t) n) s)) k =
    Some (if Lua.ge tokens (Qnat (S k)) then 1 else 0).
Proof.
  induction n as [|n IH]; intros tokens s k Hj Hk; [lia|].
  cbn [repeat run].
  pose proof (script_takes_one key max rps t tokens s Hj) as Hstep.
  destruct (_LUA_SCRIPT key max rps (set_clock t s)) as [reply s'].
  destruct Hstep as [Hreply Hj'].
  destruct k as [|k].
  - specialize (IH _ s' O Hj').
    destruct (run key max rps (repeat (Execute t) n) s') as [replies s''].
    cbn [fst nth_error]. rewrite Hreply. reflexivity.
  - specialize (IH _ s' k Hj' ltac:(lia)).
    destruct (run key max rps (repeat (Execute t) n) s') as [replies s''].
    cbn [fst nth_error] in *. rewrite IH. f_equal.
    pose proof (Qnat_S (S k)) as HS. pose proof (Qnat_nonneg k) as H0.
    pose proof (Qnat_S k) as HS'.
    destruct (Lua.ge tokens 1%Q) eqn:E1.
    + apply lua_ge_true in E1.
      destruct (Lua.ge tokens (Qnat (S (S k)))) eqn:E2.
      * apply lua_ge_true in E2.
        assert (Lua.ge (tokens - 1)%Q (Qnat (S k)) = true) as ->; [|reflexivity].
        apply lua_ge_true. lra.
      * apply lua_ge_false in E2.
        assert (Lua.ge (tokens - 1)%Q (Qnat (S k)) = false) as ->; [|reflexivity].
        apply lua_ge_false. lra.
    + apply lua_ge_false in E1.
      assert (Lua.ge tokens (Qnat (S k)) = false) as ->.
      { apply lua_ge_false. lra. }
      assert (Lua.ge tokens (Qnat (S (S k))) = false) as ->; [|reflexivity].
      apply lua_ge_false. lra.
Qed.

(** On a fresh key, for any [max_bucket_size], whole or not, negative or
    not: the [(k+1)]-th execution of a burst succeeds exactly when
    [k + 1 <= max_bucket_size]. *)
Lemma burst_on_fresh_key key max rps t n s k :
  db s !! key = None ->
  (k < n)%nat ->
  nth_error (fst (run key max rps (repeat (Execute t) n) s)) k =
  Some (if Lua.ge max (Qnat (S k)) then 1 else 0).
Proof.
  intros Hfresh Hk. apply burst_reply_at; [|exact Hk].
  left. split; [|reflexivity]. unfold stored. rewrite Hfresh. reflexivity.
Qed.

(** On exact numbers, on a key the server does not hold, with
    [max_bucket_size] the whole number [M] and any rate: when [n]
    executions of the script follow one another at one and the same clock
    reading, the first [min n M] reply 1 and all later ones reply 0. *)
Lemma exact_burst_limited_to_bucket_size :
  forall (key : string) (M : nat) (requests_per_second : Q)
         (time_result : Z * Z) (n : nat) (s : server Q),
    db s !! key = None ->
    let replies :=
      fst (run key (Qnat M) requests_per_second
             (repeat (Execute time_result) n) s) in
    replies = repeat 1 (Nat.min n M) ++ repeat 0 (n - M) /\
    (count_occ Z.eq_dec replies 1%Z <= M)%nat /\
    ((M < n)%nat -> nth_error replies M = Some 0).
Proof.
  intros key M rps t n s Hfresh replies.
  assert (replies = repeat 1 (Nat.min n M) ++ repeat 0 (n - M)) as Hreplies.
  { apply burst_replies. left. split; [|reflexivity].
    unfold stored. rewrite Hfresh. reflexivity. }
  split; [exact Hreplies|]. rewrite Hreplies. split.
  - rewrite count_occ_app, count_occ_repeat_eq by reflexivity.
    rewrite count_occ_repeat_neq by discriminate. lia.
  - intros Hlt. rewrite Nat.min_r by lia.
    rewrite nth_error_app2; rewrite repeat_length; [|lia].
    rewrite Nat.sub_diag. destruct (n - M)%nat eqn:E; [lia|reflexivity].
Qed.

(** ** Whole numbers as doubles

    Doubles count the whole numbers below [2^53] exactly.  From the
    specification of the primitive floats: the number [p] with [d]
    binary digits is the mantissa [p * 2^(53-d)] at the exponent
    [d - 53]; on such numbers the comparisons of doubles are those of
    whole numbers, and taking 1 from [p] gives [p - 1]. *)

Lemma iter_pos_iter {A} (f : A -> A) (n : positive) :
  forall x, SpecFloat.iter_pos f n x = Pos.iter f x n.
Proof.
  induction n as [n IH|n IH|]; intros x; cbn [SpecFloat.iter_pos Pos.iter].
  - rewrite !IH. rewrite <- Pos.iter_swap. rewrite <- Pos.iter_swap. reflexivity.
  - rewrite !IH. reflexivity.
  - reflexivity.
Qed.

Lemma digits2_pos_shift (q n : positive) :
  digits2_pos (Pos.iter xO q n) = (digits2_pos q + n)%positive.
Proof.
  induction n as [|n IH] using Pos.peano_ind.
  - cbn. rewrite Pos.add_1_r. reflexivity.
  - rewrite Pos.iter_succ. cbn [digits2_pos]. rewrite IH, Pos.add_succ_r. reflexivity.
Qed.

Lemma Zpos_shift (q n : positive) :
  Zpos (Pos.iter xO q n) = Zpos q * 2 ^ Zpos n.
Proof.
  induction n as [|n IH] using Pos.peano_ind.
  - cbn. lia.
  - rewrite Pos.iter_succ, Pos2Z.inj_succ, Z.pow_succ_r by lia.
    rewrite Pos2Z.inj_xO, IH. lia.
Qed.

Lemma iter_xO_add (q a b : positive) :
  Pos.iter xO (Pos.iter xO q a) b = Pos.iter xO q (a + b).
Proof. rewrite Pos.add_comm. symmetry. apply Pos.iter_add. Qed.

(** Shifting out bits that are all 0 loses nothing. *)
Lemma shr_exact (n q : positive) :
  SpecFloat.iter_pos shr_1 n {| shr_m := Zpos (Pos.iter xO q n); shr_r := false; shr_s := false |}
  = {| shr_m := Zpos q; shr_r := false; shr_s := false |}.
Proof.
  rewrite iter_pos_iter.
  induction n as [|n IH] using Pos.peano_ind.
  - reflexivity.
  - rewrite Pos.iter_succ_r. rewrite Pos.iter_succ. cbn [shr_1 orb]. exact IH.
Qed.

Lemma digits_bounds (p : positive) :
  2 ^ (Zpos (digits2_pos p) - 1) <= Zpos p < 2 ^ Zpos (digits2_pos p).
Proof.
  induction p as [p IH|p IH|]; cbn [digits2_pos].
  - rewrite Pos2Z.inj_succ.
    replace (Z.succ (Zpos (digits2_pos p)) - 1)
      with (Z.succ (Zpos (digits2_pos p) - 1)) by lia.
    rewrite !Z.pow_succ_r by lia. lia.
  - rewrite Pos2Z.inj_succ.
    replace (Z.succ (Zpos (digits2_pos p)) - 1)
      with (Z.succ (Zpos (digits2_pos p) - 1)) by lia.
    rewrite !Z.pow_succ_r by lia. lia.
  - cbn. lia.
Qed.

Lemma digits_le_53 (p : positive) : Zpos p < 2 ^ 53 -> Zpos (digits2_pos p) <= 53.
Proof.
  intros Hp. pose proof (digits_bounds p) as [Hlo _].
  destruct (Z.le_gt_cases (Zpos (digits2_pos p)) 53) as [H|H]; [exact H|].
  assert (2 ^ 53 <= 2 ^ (Zpos (digits2_pos p) - 1)) by (apply Z.pow_le_mono_r; lia).
  lia.
Qed.

(** A mantissa of 53 digits at an exponent in range is not rounded. *)
Lemma binary_round_aux_canonical (s : bool) (m : positive) (e : Z) :
  Zpos (digits2_pos m) = 53 -> -1074 <= e <= 971 ->
  binary_round_aux prec emax s (Zpos m) e loc_Exact = S754_finite s m e.
Proof.
  intros Hd He. unfold binary_round_aux, shr_fexp.
  cbn [shr_record_of_loc Zdigits2]. rewrite Hd.
  assert (fexp prec emax (53 + e) - e = 0) as ->.
  { unfold fexp, SpecFloat.emin, prec, emax. lia. }
  cbn [shr shr_m loc_of_shr_record round_nearest_even Zdigits2 shr_record_of_loc].
  rewrite Hd.
  assert (fexp prec emax (53 + e) - e = 0) as ->.
  { unfold fexp, SpecFloat.emin, prec, emax. lia. }
  cbn [shr shr_m].
  assert ((e <=? emax - prec)%Z = true) as ->.
  { apply Z.leb_le. unfold prec, emax. lia. }
  reflexivity.
Qed.

Lemma mantissa_digits (p : positive) :
  Zpos (digits2_pos p) <= 53 -> Zpos (digits2_pos (mantissa p)) = 53.
Proof.
  intros Hd. unfold mantissa.
  destruct (Zpos (digits2_pos p) - 53) as [|n|n] eqn:E; try lia.
  rewrite digits2_pos_shift. lia.
Qed.

Lemma mantissa_value (p : positive) :
  Zpos (digits2_pos p) <= 53 ->
  Zpos (mantissa p) = Zpos p * 2 ^ (53 - Zpos (digits2_pos p)).
Proof.
  intros Hd. unfold mantissa.
  destruct (Zpos (digits2_pos p) - 53) as [|n|n] eqn:E; try lia.
  - replace (53 - Zpos (digits2_pos p)) with 0 by lia. lia.
  - rewrite Zpos_shift. f_equal. f_equal. lia.
Qed.

(** The double of a whole number [p < 2^53]. *)
Lemma normalize_whole (p : positive) :
  Zpos (digits2_pos p) <= 53 ->
  binary_normalize prec emax (Zpos p) 0 false = normal_form p.
Proof.
  intros Hd. cbn [binary_normalize]. unfold binary_round.
  assert (fexp prec emax (Zpos (digits2_pos p) + 0) = Zpos (digits2_pos p) - 53) as ->.
  { unfold fexp, SpecFloat.emin, prec, emax. lia. }
  unfold shl_align, normal_form, mantissa. rewrite Z.sub_0_r.
  pose proof (mantissa_digits p Hd) as Hm. unfold mantissa in Hm.
  destruct (Zpos (digits2_pos p) - 53) as [|n|n] eqn:E; try lia.
  - apply binary_round_aux_canonical; [exact Hm | lia].
  - apply binary_round_aux_canonical; [exact Hm | lia].
Qed.

(** The double of [q * 2^52] at the exponent [-52], which is what a
    subtraction of whole numbers computes. *)
Lemma normalize_shifted (q : positive) :
  Zpos (digits2_pos q) <= 53 ->
  binary_normalize prec emax (Zpos (Pos.iter xO q 52)) (-52) false = normal_form q.
Proof.
  intros Hd. cbn [binary_normalize]. unfold binary_round.
  rewrite digits2_pos_shift.
  assert (fexp prec emax (Zpos (digits2_pos q + 52) + -52)
          = Zpos (digits2_pos q) - 53) as ->.
  { unfold fexp, SpecFloat.emin, prec, emax. lia. }
  unfold shl_align.
  destruct (Zpos (digits2_pos q) - 53 - -52) as [|n|n] eqn:E; try lia.
  - assert (Zpos (digits2_pos q) = 1) as Hq by lia.
    assert (q = 1%positive) as -> by (destruct q; cbn in Hq; try lia; reflexivity).
    vm_compute. reflexivity.
  - unfold binary_round_aux, shr_fexp. cbn [Zdigits2 shr_record_of_loc].
    rewrite digits2_pos_shift.
    assert (fexp prec emax (Zpos (digits2_pos q + 52) + -52) - -52 = Zpos n) as ->.
    { unfold fexp, SpecFloat.emin, prec, emax. lia. }
    cbn [shr].
    pose proof (mantissa_digits q Hd) as Hm.
    assert (Pos.iter xO q 52 = Pos.iter xO (mantissa q) n) as ->.
    { unfold mantissa.
      destruct (Zpos (digits2_pos q) - 53) as [|k|k] eqn:E'; try lia.
      - f_equal. lia.
      - rewrite iter_xO_add. f_equal. lia. }
    rewrite shr_exact.
    cbn [shr_m loc_of_shr_record round_nearest_even Zdigits2 shr_record_of_loc].
    rewrite Hm.
    assert (fexp prec emax (53 + (-52 + Zpos n)) - (-52 + Zpos n) = 0) as ->.
    { unfold fexp, SpecFloat.emin, prec, emax. lia. }
    cbn [shr shr_m].
    assert ((-52 + Zpos n <=? emax - prec)%Z = true) as ->.
    { apply Z.leb_le. unfold prec, emax. lia. }
    unfold normal_form. f_equal. lia.
Qed.

Lemma normal_form_compare (p q : positive) :
  Zpos p < 2 ^ 53 -> Zpos q < 2 ^ 53 ->
  SFcompare (normal_form p) (normal_form q) = Some (Pos.compare p q).
Proof.
  intros Hp Hq. pose proof (digits_le_53 p Hp) as Hdp.
  pose proof (digits_le_53 q Hq) as Hdq.
  unfold normal_form. cbn [SFcompare]. f_equal.
  destruct (Z.compare_spec (Zpos (digits2_pos p) - 53) (Zpos (digits2_pos q) - 53))
    as [E|E|E].
  - change (Pos.compare_cont Eq (mantissa p) (mantissa q))
      with (Pos.compare (mantissa p) (mantissa q)).
    rewrite (Pos2Z.inj_compare (mantissa p)), (Pos2Z.inj_compare p).
    rewrite !mantissa_value by assumption.
    replace (Zpos (digits2_pos q)) with (Zpos (digits2_pos p)) by lia.
    assert (0 < 2 ^ (53 - Zpos (digits2_pos p))) as Hc
      by (apply Z.pow_pos_nonneg; lia).
    set (c := 2 ^ (53 - Zpos (digits2_pos p))) in *.
    destruct (Z.compare_spec (Zpos p) (Zpos q)) as [F|F|F];
      [apply Z.compare_eq_iff | apply Z.compare_lt_iff | apply Z.compare_gt_iff]; nia.
  - symmetry. apply Pos.compare_lt_iff.
    pose proof (digits_bounds p) as [_ Hhi]. pose proof (digits_bounds q) as [Hlo _].
    assert (2 ^ Zpos (digits2_pos p) <= 2 ^ (Zpos (digits2_pos q) - 1))
      by (apply Z.pow_le_mono_r; lia).
    lia.
  - symmetry. apply Pos.compare_gt_iff.
    pose proof (digits_bounds q) as [_ Hhi]. pose proof (digits_bounds p) as [Hlo _].
    assert (2 ^ Zpos (digits2_pos q) <= 2 ^ (Zpos (digits2_pos p) - 1))
      by (apply Z.pow_le_mono_r; lia).
    lia.
Qed.

Lemma normal_form_one : normal_form 1 = S754_finite false 4503599627370496 (-52).
Proof. vm_compute. reflexivity. Qed.

Lemma normal_form_sub_one (p : positive) :
  Zpos p < 2 ^ 53 -> (1 < p)%positive ->
  SF64sub (normal_form p) (normal_form 1) = normal_form (p - 1)%positive.
Proof.
  intros Hp H1. pose proof (digits_le_53 p Hp) as Hdp.
  assert (2 <= Zpos (digits2_pos p)) as Hd2.
  { pose proof (digits_bounds p) as [_ Hhi].
    destruct (Z.le_gt_cases 2 (Zpos (digits2_pos p))) as [H|H]; [exact H|].
    assert (Zpos (digits2_pos p) = 1) as E by lia. rewrite E in Hhi. lia. }
  rewrite normal_form_one. unfold normal_form at 1. unfold SF64sub, SFsub.
  assert (Z.min (Zpos (digits2_pos p) - 53) (-52) = -52) as -> by lia.
  assert (Zpos (fst (shl_align (mantissa p) (Zpos (digits2_pos p) - 53) (-52)))
          = Zpos p * 2 ^ 52) as ->.
  { unfold shl_align.
    destruct (-52 - (Zpos (digits2_pos p) - 53)) as [|n|n] eqn:E; try lia.
    cbn [fst]. rewrite Zpos_shift, mantissa_value by assumption.
    rewrite <- Z.mul_assoc, <- Z.pow_add_r by lia. f_equal. f_equal. lia. }
  assert (Zpos (fst (shl_align 4503599627370496 (-52) (-52))) = 2 ^ 52) as ->
    by (vm_compute; reflexivity).
  cbn [cond_Zopp].
  assert (Zpos p * 2 ^ 52 - 2 ^ 52 = Zpos (Pos.iter xO (p - 1)%positive 52)) as ->.
  { rewrite Zpos_shift, Pos2Z.inj_sub by exact H1. lia. }
  apply normalize_shifted. apply digits_le_53.
  rewrite Pos2Z.inj_sub by exact H1. lia.
Qed.

(** The double [Dnat j] in the terms of the specification. *)
Lemma Dnat_spec (j : nat) :
  Z.of_nat j < 2 ^ 53 -> Prim2SF (Dnat j) = SFnat j.
Proof.
  intros Hj. unfold Dnat, Lua.double_of_Z.
  assert ((Z.of_nat j <? 0)%Z = false) as -> by (apply Z.ltb_ge; lia).
  rewrite of_uint63_spec, Uint63.of_Z_spec.
  rewrite Z.mod_small.
  2:{ split; [lia|]. change wB with (2 ^ 63).
      assert (2 ^ 53 < 2 ^ 63) by (apply Z.pow_lt_mono_r; lia). lia. }
  destruct j as [|j]; [reflexivity|].
  cbn [SFnat]. rewrite <- normalize_whole.
  - f_equal. rewrite <- positive_nat_Z. rewrite Nat2Pos.id by discriminate. reflexivity.
  - apply digits_le_53. rewrite <- positive_nat_Z, Nat2Pos.id by discriminate. exact Hj.
Qed.

Lemma one_spec : Prim2SF 1 = normal_form 1.
Proof. vm_compute. reflexivity. Qed.

Lemma Pos_of_nat_lt (j : nat) : Z.of_nat (S j) < 2 ^ 53 ->
  Zpos (Pos.of_nat (S j)) < 2 ^ 53.
Proof. intros Hj. rewrite <- positive_nat_Z, Nat2Pos.id by discriminate. exact Hj. Qed.

(** [tokens >= 1] on whole doubles. *)
Lemma Dnat_ge_one (j : nat) :
  Z.of_nat j < 2 ^ 53 -> (1 <=? Dnat j)%float = (1 <=? j)%nat.
Proof.
  intros Hj. rewrite leb_spec, (Dnat_spec j Hj), one_spec.
  destruct j as [|j]; [reflexivity|].
  cbn [SFnat]. unfold SFleb.
  rewrite normal_form_compare; [|vm_compute; reflexivity | apply Pos_of_nat_lt, Hj].
  destruct (Pos.compare_spec 1 (Pos.of_nat (S j))) as [E|E|E]; try reflexivity.
  lia.
Qed.

(** [a < b] on whole doubles. *)
Lemma Dnat_lt (i j : nat) :
  Z.of_nat i < 2 ^ 53 -> Z.of_nat j < 2 ^ 53 ->
  (Dnat i <? Dnat j)%float = (i <? j)%nat.
Proof.
  intros Hi Hj. rewrite ltb_spec, (Dnat_spec i Hi), (Dnat_spec j Hj).
  destruct i as [|i], j as [|j]; try reflexivity.
  cbn [SFnat]. unfold SFltb.
  rewrite normal_form_compare by (apply Pos_of_nat_lt; assumption).
  destruct (Pos.compare_spec (Pos.of_nat (S i)) (Pos.of_nat (S j))) as [E|E|E];
    symmetry.
  - apply Nat.ltb_ge. lia.
  - apply Nat.ltb_lt. lia.
  - apply Nat.ltb_ge. lia.
Qed.

(** Taking one token from a whole number of them. *)
Lemma Dnat_sub_one (j : nat) :
  Z.of_nat (S j) < 2 ^ 53 -> (Dnat (S j) - 1)%float = Dnat j.
Proof.
  intros Hj. apply Prim2SF_inj.
  rewrite sub_spec, (Dnat_spec (S j) Hj), one_spec, Dnat_spec by lia.
  destruct j as [|j]; [vm_compute; reflexivity|].
  cbn [SFnat]. rewrite normal_form_sub_one.
  - f_equal. lia.
  - apply Pos_of_nat_lt, Hj.
  - lia.
Qed.

(** Adding a zero, of either sign, to a whole number. *)
Lemma Dnat_add_zero (j : nat) (z : float) (sz : bool) :
  Z.of_nat j < 2 ^ 53 -> Prim2SF z = S754_zero sz -> (Dnat j + z)%float = Dnat j.
Proof.
  intros Hj Hz. apply Prim2SF_inj. rewrite add_spec, Hz, (Dnat_spec j Hj).
  destruct j as [|j]; [destruct sz; reflexivity | reflexivity].
Qed.

(** What a finite double is in the terms of the specification. *)
Lemma finite_spec (x : float) :
  PrimFloat.is_finite x = true ->
  (exists s, Prim2SF x = S754_zero s) \/ (exists s m e, Prim2SF x = S754_finite s m e).
Proof.
  unfold PrimFloat.is_finite, PrimFloat.is_nan, PrimFloat.is_infinity.
  rewrite !FloatAxioms.eqb_spec, abs_spec.
  change (Prim2SF infinity) with (S754_infinity false).
  destruct (Prim2SF x) as [s|s| |s m e]; cbn; try discriminate; eauto.
  destruct s; discriminate.
Qed.

Lemma finite_times_zero (r : float) :
  PrimFloat.is_finite r = true -> exists s, Prim2SF (0 * r)%float = S754_zero s.
Proof.
  intros Hr. rewrite mul_spec. change (Prim2SF 0) with (S754_zero false).
  destruct (finite_spec r Hr) as [[s ->] | (s & m & e & ->)]; cbn; eauto.
Qed.

Lemma finite_minus_itself (x : float) :
  PrimFloat.is_finite x = true -> (x - x)%float = 0%float.
Proof.
  intros Hx. apply Prim2SF_inj. rewrite sub_spec.
  change (Prim2SF 0) with (S754_zero false).
  destruct (finite_spec x Hx) as [[s ->] | (s & m & e & ->)].
  - destruct s; reflexivity.
  - unfold SF64sub, SFsub. rewrite Z.sub_diag. reflexivity.
Qed.

(** ** A burst on a fresh key, on doubles *)

(** No time has passed since the last refill: a whole number of tokens
    within the size of the bucket is what it was. *)
Lemma refilled_on_doubles (M j : nat) (now rps : float) :
  Z.of_nat M < 2 ^ 53 -> (j <= M)%nat ->
  PrimFloat.is_finite rps = true -> PrimFloat.is_finite now = true ->
  refilled (Some (Dnat j, now)) now (Dnat M) rps = Dnat j.
Proof.
  intros HM Hj Hrps Hnow. unfold refilled, Lua.math_min. double_numbers.
  rewrite (finite_minus_itself now Hnow).
  change (0 <? 0)%float with false. cbv iota.
  destruct (finite_times_zero rps Hrps) as [sz Hz].
  rewrite (Dnat_add_zero j _ sz) by (lia || exact Hz).
  rewrite Dnat_lt by lia.
  destruct (j <? M)%nat eqn:E; [reflexivity|].
  apply Nat.ltb_ge in E. f_equal. lia.
Qed.

Lemma holds_on_doubles_refilled key (M : nat) rps t (j : nat) s :
  Z.of_nat M < 2 ^ 53 ->
  PrimFloat.is_finite rps = true ->
  PrimFloat.is_finite (current_time_of t) = true ->
  holds_on_doubles key M t j s ->
  refilled (stored (db (set_clock t s)) key) (current_time_of t) (Dnat M) rps
  = Dnat j /\ (j <= M)%nat.
Proof.
  intros HM Hrps Hnow. cbn [set_clock db].
  intros [[Hnone ->] | [Hst Hle]]; rewrite ?Hnone, ?Hst.
  - split; [|lia]. change (refilled None ?now ?max ?r)
      with (refilled (Some (max, now)) now max r).
    apply refilled_on_doubles; [exact HM | lia | exact Hrps | exact Hnow].
  - split; [|exact Hle]. apply refilled_on_doubles; assumption.
Qed.

(** An execution at the reading of the last refill takes one token when
    there is one, and changes nothing else. *)
Lemma script_takes_one_on_doubles key (M : nat) rps t (j : nat) s :
  Z.of_nat M < 2 ^ 53 ->
  PrimFloat.is_finite rps = true ->
  PrimFloat.is_finite (current_time_of t) = true ->
  holds_on_doubles key M t j s ->
  let (reply, s') := _LUA_SCRIPT key (Dnat M) rps (set_clock t s) in
  reply = (if (1 <=? j)%nat then 1 else 0) /\
  holds_on_doubles key M t (j - 1) s'.
Proof.
  intros HM Hrps Hnow Hj.
  destruct (holds_on_doubles_refilled key M rps t j s HM Hrps Hnow Hj) as [Href Hle].
  pose proof (script_reply key (Dnat M) rps (set_clock t s)) as Hr.
  pose proof (script_stored key (Dnat M) rps (set_clock t s)) as Hs.
  destruct (_LUA_SCRIPT key (Dnat M) rps (set_clock t s)) as [reply s'].
  cbn [fst snd set_clock clock db] in Hr, Hs. cbn [set_clock db] in Href.
  rewrite Href in Hr, Hs. unfold debited, Lua.ge in Hr, Hs. double_numbers.
  rewrite Dnat_ge_one in Hr, Hs by lia.
  split; [exact Hr|]. right. split; [|lia]. rewrite Hs. f_equal. f_equal.
  destruct j as [|j]; [reflexivity|].
  cbn [Nat.leb]. rewrite Dnat_sub_one by lia. f_equal. lia.
Qed.

Lemma burst_replies_on_doubles key (M : nat) rps t n :
  Z.of_nat M < 2 ^ 53 ->
  PrimFloat.is_finite rps = true ->
  PrimFloat.is_finite (current_time_of t) = true ->
  forall (j : nat) s, holds_on_doubles key M t j s ->
    fst (run key (Dnat M) rps (repeat (Execute t) n) s) =
    repeat 1 (Nat.min n j) ++ repeat 0 (n - j).
Proof.
  intros HM Hrps Hnow.
  induction n as [|n IH]; intros j s Hj; [reflexivity|].
  cbn [repeat run].
  pose proof (script_takes_one_on_doubles key M rps t j s HM Hrps Hnow Hj) as Hstep.
  destruct (_LUA_SCRIPT key (Dnat M) rps (set_clock t s)) as [reply s'].
  destruct Hstep as [Hreply Hj'].
  specialize (IH _ _ Hj').
  destruct (run key (Dnat M) rps (repeat (Execute t) n) s') as [replies s''].
  cbn [fst] in *. rewrite Hreply, IH.
  destruct j as [|j].
  - cbn [Nat.leb Nat.min Nat.sub repeat app]. rewrite Nat.min_0_r, Nat.sub_0_r.
    reflexivity.
  - cbn [Nat.leb Nat.min Nat.sub repeat app]. rewrite Nat.sub_0_r. reflexivity.
Qed.

(** C3, as amended.  On the doubles of Lua, on a key the server does not
    hold, with [max_bucket_size] a whole number [M] below [2^53] and a
    finite [requests_per_second]: when [n] executions of the script
    follow one another at one and the same finite clock reading, the
    first [min n M] reply 1 and all later ones reply 0.  So at most [M] of
    them succeed, and the [(M+1)]-th, when the run is that long, fails. *)
Theorem burst_limited_to_bucket_size :
  forall (key : string) (M : nat) (requests_per_second : float)
         (time_result : Z * Z) (n : nat) (s : server float),
    Z.of_nat M < 2 ^ 53 ->
    PrimFloat.is_finite requests_per_second = true ->
    PrimFloat.is_finite (current_time_of time_result) = true ->
    db s !! key = None ->
    let replies :=
      fst (run key (Dnat M) requests_per_second
             (repeat (Execute time_result) n) s) in
    replies = repeat 1 (Nat.min n M) ++ repeat 0 (n - M) /\
    (count_occ Z.eq_dec replies 1%Z <= M)%nat /\
    ((M < n)%nat -> nth_error replies M = Some 0).
Proof.
  intros key M rps t n s HM Hrps Hnow Hfresh replies.
  assert (replies = repeat 1 (Nat.min n M) ++ repeat 0 (n - M)) as Hreplies.
  { apply (burst_replies_on_doubles key M rps t n HM Hrps Hnow).
    left. split; [|reflexivity]. unfold stored. rewrite Hfresh. reflexivity. }
  split; [exact Hreplies|]. rewrite Hreplies. split.
  - rewrite count_occ_app, count_occ_repeat_eq by reflexivity.
    rewrite count_occ_repeat_neq by discriminate. lia.
  - intros Hlt. rewrite Nat.min_r by lia.
    rewrite nth_error_app2; rewrite repeat_length; [|lia].
    rewrite Nat.sub_diag. destruct (n - M)%nat eqn:E; [lia|reflexivity].
Qed.

Lemma burst_limited_to_bucket_size_witness :
  fst (run "app:rate_limit" (Dnat 3) 5%float (repeat (Execute (100, 0)) 6) fresh_server)
  = [1; 1; 1; 0; 0; 0].
Proof.
  apply (burst_limited_to_bucket_size "app:rate_limit" 3 5%float (100, 0) 6 fresh_server).
  - reflexivity.
  - reflexivity.
  - vm_compute. reflexivity.
  - reflexivity.
Defined.

(** A bucket of [2^54] tokens never runs dry: the double [2^54 - 1] is
    [2^54], so every execution finds the bucket as the one before found
    it. *)
Lemma huge_bucket_step (s : server float) :
  stored (db s) "app:rate_limit" = None \/
  stored (db s) "app:rate_limit" = Some (18014398509481984%float, 100%float) ->
  let (reply, s') :=
    _LUA_SCRIPT "app:rate_limit" 18014398509481984%float 1%float
      (set_clock (100, 0) s) in
  reply = 1 /\
  stored (db s') "app:rate_limit" = Some (18014398509481984%float, 100%float).
Proof.
  intros Hs.
  pose proof (script_reply "app:rate_limit" 18014398509481984%float 1%float
                (set_clock (100, 0) s)) as Hr.
  pose proof (script_stored "app:rate_limit" 18014398509481984%float 1%float
                (set_clock (100, 0) s)) as Hst.
  destruct (_LUA_SCRIPT _ _ _ (set_clock (100, 0) s)) as [reply s'].
  cbn [fst snd set_clock clock db] in Hr, Hst.
  destruct Hs as [Hs | Hs]; rewrite Hs in Hr, Hst; rewrite Hr, Hst;
    split; vm_compute; reflexivity.
Qed.

Lemma huge_bucket_replies (n : nat) :
  forall s : server float,
    stored (db s) "app:rate_limit" = None \/
    stored (db s) "app:rate_limit" = Some (18014398509481984%float, 100%float) ->
    fst (run "app:rate_limit" 18014398509481984%float 1%float
           (repeat (Execute (100, 0)) n) s) = repeat 1 n.
Proof.
  induction n as [|n IH]; intros s Hs; [reflexivity|].
  cbn [repeat run]. pose proof (huge_bucket_step s Hs) as Hstep.
  destruct (_LUA_SCRIPT _ _ _ (set_clock (100, 0) s)) as [reply s'].
  destruct Hstep as [-> Hs']. specialize (IH s' (or_intror Hs')).
  destruct (run _ _ _ (repeat (Execute (100, 0)) n) s') as [replies s''].
  cbn [fst] in *. rewrite IH. reflexivity.
Qed.

(** C3 as stated fails on the doubles of Lua, in two ways.  A bucket of
    [M = 2^54] tokens grants every attempt of every burst, the
    [(M+1)]-th among them.  And with [requests_per_second] infinite, which
    the constructor accepts, a bucket of one token grants twice at one
    clock reading: the refill [0 * inf] is not a number, and [math.min]
    answers [max_bucket_size] for it. *)
Lemma burst_beyond_bucket_size :
  (18014398509481984%float = Lua.double_of_Z (2 ^ 54) /\
   forall n : nat,
     fst (run "app:rate_limit" 18014398509481984%float 1%float
            (repeat (Execute (100, 0)) n) fresh_server) = repeat 1 n) /\
  fst (run "app:rate_limit" (Dnat 1) infinity
         (repeat (Execute (100, 0)) 2) fresh_server) = [1; 1].
Proof.
  split; [split|].
  - vm_compute. reflexivity.
  - intros n. apply huge_bucket_replies. left. reflexivity.
  - vm_compute. reflexivity.
Qed.

(** ** The stored time of the last refill *)

(** C4, as amended.  After an execution the stored [last_refill] is the
    clock reading of that execution.  Hence over two successive executions
    on a key it does not decrease exactly when the clock did not go back
    between them; the clamp of the elapsed time keeps the refill from being
    negative, it does not keep [last_refill] from moving back. *)
Theorem last_refill_follows_clock :
  forall (key : string) (max_bucket_size requests_per_second : Q) (s : server Q)
         (t1 t2 : Z * Z),
    let s1 := snd (_LUA_SCRIPT key max_bucket_size requests_per_second (set_clock t1 s)) in
    let s2 := snd (_LUA_SCRIPT key max_bucket_size requests_per_second (set_clock t2 s1)) in
    exists tokens1 last_refill1 tokens2 last_refill2,
      stored (db s1) key = Some (tokens1, last_refill1) /\
      stored (db s2) key = Some (tokens2, last_refill2) /\
      (last_refill1 == current_time_of t1)%Q /\
      (last_refill2 == current_time_of t2)%Q /\
      ((last_refill1 <= last_refill2)%Q <->
       (current_time_of t1 <= current_time_of t2)%Q).
Proof.
  intros key max rps s t1 t2 s1 s2.
  eexists _, _, _, _.
  split; [apply script_stored|]. split; [apply script_stored|].
  cbn [set_clock clock].
  split; [reflexivity|]. split; [reflexivity|]. reflexivity.
Qed.

(** C4 as stated fails: the clock reads 100 s at the first execution and
    90 s at the second, and the stored [last_refill] goes from 100 back to
    90. *)
Lemma last_refill_moves_back :
  let s1 := snd (run "app:rate_limit" 1%Q 1%Q [Execute (100, 0)] fresh_server) in
  let s2 := snd (run "app:rate_limit" 1%Q 1%Q [Execute (90, 0)] s1) in
  exists tokens1 last_refill1 tokens2 last_refill2,
    stored (db s1) "app:rate_limit" = Some (tokens1, last_refill1) /\
    stored (db s2) "app:rate_limit" = Some (tokens2, last_refill2) /\
    (last_refill1 == 100)%Q /\ (last_refill2 == 90)%Q /\
    ~ (last_refill1 <= last_refill2)%Q.
Proof.
  cbv zeta. eexists _, _, _, _.
  split; [vm_compute; reflexivity|]. split; [vm_compute; reflexivity|].
  split; [reflexivity|]. split; [reflexivity|].
  intros Hle. vm_compute in Hle. apply Hle. reflexivity.
Qed.

(** ** Waiting for one token *)

(** On exact numbers a bucket of size 1 or more that holds no token has
    one again exactly [1/r] seconds after its last refill. *)
Lemma exact_refill_after_one_period :
  forall (key : string) (max_bucket_size r : Q) (s : server Q)
         (tokens last_refill : Q),
    (0 < r)%Q ->
    (1 <= max_bucket_size)%Q ->
    stored (db s) key = Some (tokens, last_refill) ->
    (tokens == 0)%Q ->
    (current_time_of (clock s) - last_refill == 1 / r)%Q ->
    fst (_LUA_SCRIPT key max_bucket_size r s) = 1.
Proof.
  intros key max r s tokens last_refill Hr Hmax Hst Htk Hel.
  rewrite script_reply, Hst. exact_numbers.
  assert (Lua.ge (refilled (Some (tokens, last_refill)) (current_time_of (clock s)) max r) 1%Q
          = true) as E; [|rewrite E; reflexivity].
  apply lua_ge_true. rewrite refilled_spec. unfold spec_tokens.
  apply Q.min_glb; [exact Hmax|].
  assert (1 / r * r == 1)%Q as Hone by (field; lra).
  assert (0 < 1 / r)%Q as Hpos.
  { unfold Qdiv. rewrite Qmult_1_l. apply Qinv_lt_0_compat. exact Hr. }
  assert (Qmax 0 (current_time_of (clock s) - last_refill) == 1 / r)%Q as Hmx.
  { rewrite <- Hel. apply Q.max_r. rewrite Hel. lra. }
  rewrite Hmx, Htk, Hone. lra.
Qed.

(** Two facts about doubles, from their specification.  Adding a number
    that is at least 1 to zero gives that number.  A product with a
    positive factor that is at least 1 has no negative other factor. *)
Lemma double_add_zero (x : float) :
  (1 <=? x)%float = true -> (0 + x)%float = x.
Proof.
  intros Hx. apply Prim2SF_inj. rewrite add_spec. rewrite leb_spec in Hx.
  change (Prim2SF 0) with (S754_zero false).
  destruct (Prim2SF x) as [sx|sx| |sx mx ex]; try reflexivity.
  vm_compute in Hx. discriminate.
Qed.

Lemma rounded_sign (prec emax : Z) (sx : bool) (m e : Z) (l : location) :
  SFleb (Prim2SF 1) (binary_round_aux prec emax sx m e l) = true -> sx = false.
Proof.
  unfold binary_round_aux.
  destruct (shr_fexp prec emax m e l) as [mrs' e'].
  destruct (shr_fexp prec emax _ e' loc_Exact) as [mrs'' e''].
  destruct (shr_m mrs'') as [|p|p]; [| destruct (e'' <=? emax - prec)%Z |];
    destruct sx; try reflexivity; vm_compute; discriminate.
Qed.

Lemma double_factor_not_negative (x r : float) :
  (0 <? r)%float = true -> (1 <=? x * r)%float = true -> (x <? 0)%float = false.
Proof.
  rewrite !ltb_spec, leb_spec, mul_spec.
  change (Prim2SF 0) with (S754_zero false).
  unfold SF64mul.
  destruct (Prim2SF x) as [sx|sx| |sx mx ex], (Prim2SF r) as [sr|sr| |sr mr er];
    try (vm_compute; discriminate); try reflexivity;
    try (destruct sx, sr; vm_compute; try discriminate; reflexivity).
  intros Hr Hp. cbn [SFmul] in Hp. apply rounded_sign in Hp.
  destruct sx, sr; try reflexivity; discriminate.
Qed.

(** C7, as amended.  With [requests_per_second = r > 0] and
    [max_bucket_size >= 1], on the doubles of Lua: on a bucket that holds
    exactly 0 tokens, an execution replies 1 when the refill it computes,
    the double [(current_time - last_refill) * r], is at least 1.  Waiting
    [1/r] seconds on the clock of the server gives such a refill when no
    rounding takes the product below 1. *)
Theorem refill_after_one_period :
  forall (key : string) (max_bucket_size r : float) (s : server float)
         (last_refill : float),
    (0 <? r)%float = true ->
    (1 <=? max_bucket_size)%float = true ->
    stored (db s) key = Some (0%float, last_refill) ->
    (1 <=? (current_time_of (clock s) - last_refill) * r)%float = true ->
    fst (_LUA_SCRIPT key max_bucket_size r s) = 1.
Proof.
  intros key max r s last_refill Hr Hmax Hst Hrefill.
  rewrite script_reply, Hst.
  unfold refilled, Lua.math_min, Lua.ge. double_numbers.
  rewrite (double_factor_not_negative _ r Hr Hrefill).
  rewrite (double_add_zero _ Hrefill).
  destruct (_ <? max)%float; [rewrite Hrefill | rewrite Hmax]; reflexivity.
Qed.

Lemma refill_after_one_period_witness :
  fst (_LUA_SCRIPT "app:rate_limit" 3%float 4%float
         (server_holding "app:rate_limit" 0%float 100%float (100, 250000))) = 1.
Proof.
  apply (refill_after_one_period "app:rate_limit" 3%float 4%float
           (server_holding "app:rate_limit" 0%float 100%float (100, 250000))
           100%float).
  - reflexivity.
  - reflexivity.
  - vm_compute. reflexivity.
  - vm_compute. reflexivity.
Defined.

(** C7 as stated fails in two ways.  With [max_bucket_size = 1/2] and
    [r = 1], a bucket holding 0 tokens is refilled one second later to
    the smaller of [1/2] and [0 + 1]: less than 1, the reply is 0.  With
    [max_bucket_size = 1] and [r = 10], a bucket holding 0 tokens since
    100 s is asked again at 100 s and 100000 microseconds, [1/r] seconds
    later by the clock: on doubles the refill is [0.99999999999994316] and
    the reply is 0, where exact numbers give 1. *)
Lemma no_token_after_one_period :
  (let s := server_holding "app:rate_limit" 0%float 100%float (101, 0) in
   stored (db s) "app:rate_limit" = Some (0%float, 100%float) /\
   (current_time_of (clock s) - 100)%float = (1 / 1)%float /\
   fst (_LUA_SCRIPT "app:rate_limit" 0.5%float 1%float s) = 0) /\
  (let s := server_holding "app:rate_limit" 0%float 100%float (100, 100000) in
   stored (db s) "app:rate_limit" = Some (0%float, current_time_of (100, 0)) /\
   (inject_Z (100 * 1000000 + 100000) / 1000000 - 100 == 1 / 10)%Q /\
   ((current_time_of (clock s) - 100) * 10)%float = 0.99999999999994316%float /\
   fst (_LUA_SCRIPT "app:rate_limit" 1%float 10%float s) = 0 /\
   fst (_LUA_SCRIPT "app:rate_limit" 1%Q 10%Q
          (server_holding "app:rate_limit" 0%Q 100%Q (100, 100000))) = 1).
Proof.
  split; cbv zeta.
  - split; [vm_compute; reflexivity|]. split; vm_compute; reflexivity.
  - split; [vm_compute; reflexivity|]. split; [vm_compute; reflexivity|].
    split; [vm_compute; reflexivity|]. split; vm_compute; reflexivity.
Qed.

(** The first of the two on a state the script itself produces: with
    [max_bucket_size = 0] the bucket of a fresh key holds 0 tokens after
    the first execution, and the execution one second later replies 0. *)
Example no_token_in_an_empty_bucket :
  let s1 := snd (run "app:rate_limit" 0%float 1%float [Execute (100, 0)] fresh_server) in
  stored (db s1) "app:rate_limit" = Some (0%float, 100%float) /\
  fst (run "app:rate_limit" 0%float 1%float [Execute (101, 0)] s1) = [0].
Proof. cbv zeta. split; vm_compute; reflexivity. Qed.

(** ** What an execution sends to the store *)

(** C9.  Every execution of the script, whether it replies 1 or 0, runs
    these four commands and no other: [TIME], one [HMGET], one [HMSET] and
    [EXPIRE] of the key with 86400 seconds.  The [HMSET] writes, as
    [tokens], the tokens after the refill, less 1 when they are at least
    1, and as [last_refill] the current time.  The script writes the
    bucket exactly once, never deletes, and leaves under the key what it
    wrote, with a time to live of 86400 seconds.  The numbers are the
    doubles of Lua; the key is absent before the execution or holds a
    hash. *)
Theorem script_writes_once_and_expires :
  forall (key : string) (max_bucket_size requests_per_second : float)
         (s : server float),
    let s' := snd (_LUA_SCRIPT key max_bucket_size requests_per_second s) in
    let current_time := current_time_of (clock s) in
    let tokens :=
      refilled (stored (db s) key) current_time max_bucket_size
               requests_per_second in
    let written :=
      if (1 <=? tokens)%float then (tokens - 1)%float else tokens in
    let sent := [TIME; HMGET key ["tokens"; "last_refill"];
                 HMSET key [("tokens", Numeric written);
                            ("last_refill", Numeric current_time)];
                 EXPIRE key 86400] in
    calls s' = calls s ++ sent /\
    length (filter is_write sent) = 1%nat /\
    filter is_delete sent = [] /\
    stored (db s') key = Some (written, current_time) /\
    ttl <$> db s' !! key = Some (Some 86400).
Proof.
  intros key max rps s s' current_time tokens written sent.
  subst s' sent written tokens current_time.
  pose proof (script_stored key max rps s) as Hst.
  rewrite script_run in *. cbn [snd calls db] in *.
  split; [reflexivity|]. split; [reflexivity|]. split; [reflexivity|].
  split; [exact Hst|].
  rewrite lookup_insert_eq. reflexivity.
Qed.

(* ===================================================================== *)
(** * The client against scripted replies *)
(* ===================================================================== *)

Section Sleeping.

Context {W : Type} `{Runtime W}.

Lemma time_sleep_accepted (secs : Q) (w : W) :
  (0 <= secs)%Q -> time_sleep secs w = inr (block_thread secs w).
Proof.
  intros Hs. unfold time_sleep. apply Qle_bool_iff in Hs. rewrite Hs. reflexivity.
Qed.


End Sleeping.

Lemma consume_mock self (w : Mock.world) :
  _consume self w =
  (py_bool (Mock.side_effect w (Mock.call_count w)), attempted self w).
Proof. reflexivity. Qed.

Lemma aconsume_mock self (w : Mock.world) :
  _aconsume self w =
  (py_bool (Mock.aside_effect w (Mock.await_count w)), aattempted self w).
Proof. reflexivity. Qed.

Lemma acquire_loop_denied self fuel (w : Mock.world) :
  (0 <= check_every_n_seconds self)%Q ->
  py_bool (Mock.side_effect w (Mock.call_count w)) = false ->
  acquire_loop (S fuel) self w = acquire_loop fuel self (paused self w).
Proof.
  intros Hc Hd. cbn [acquire_loop]. rewrite consume_mock, Hd. cbn [negb].
  rewrite (time_sleep_accepted _ _ Hc). reflexivity.
Qed.




(** While the replies are denials the loop goes on polling. *)
Lemma acquire_loop_polling self (n : nat) :
  (0 <= check_every_n_seconds self)%Q ->
  forall (w : Mock.world) (fuel : nat),
    (forall k, (k < n)%nat ->
               py_bool (Mock.side_effect w (Mock.call_count w + k)) = false) ->
    acquire_loop (n + fuel) self w = acquire_loop fuel self (after_polls self n w).
Proof.
  intros Hc. induction n as [|n IH]; intros w fuel Hden; [reflexivity|].
  cbn [Nat.add after_polls]. rewrite (acquire_loop_denied _ _ _ Hc).
  - apply IH. intros k Hk. cbn. rewrite <- Nat.add_succ_r. apply Hden. lia.
  - rewrite <- (Nat.add_0_r (Mock.call_count w)). apply Hden. lia.
Qed.

(** When no reply is a grant, the blocking call has not returned after any
    number of evaluations of its loop condition. *)
Lemma blocking_acquire_never_granted self (w : Mock.world) :
  (0 <= check_every_n_seconds self)%Q ->
  (forall k, py_bool (Mock.side_effect w (Mock.call_count w + k)) = false) ->
  forall fuel, fst (acquire fuel self true w) = None.
Proof.
  intros Hc Hden fuel. unfold acquire. cbn [negb].
  rewrite <- (Nat.add_0_r fuel).
  rewrite (acquire_loop_polling _ _ Hc) by (intros k _; apply Hden). reflexivity.
Qed.

(** C5.  [acquire(blocking=False)] calls [eval] on the synchronous client
    once, with one key and the configured arguments, and returns [bool] of
    the reply: [True] for the reply 1 of a grant, [False] for the reply 0
    of a denial.  It makes no other call, so it does not sleep.
    [aacquire(blocking=False)] does the same on the asynchronous client. *)
Theorem nonblocking_attempts_once :
  forall (fuel : nat) (self : RedisRateLimiter) (w : Mock.world),
    (exists w',
        acquire fuel self false w =
          (Some (Returns (py_bool (Mock.side_effect w (Mock.call_count w)))), w') /\
        Mock.mock_calls w' = Mock.mock_calls w ++ [attempt self] /\
        Mock.call_count w' = S (Mock.call_count w) /\
        Mock.await_count w' = Mock.await_count w) /\
    (exists w',
        aacquire fuel self false w =
          (Some (py_bool (Mock.aside_effect w (Mock.await_count w))), w') /\
        Mock.mock_calls w' = Mock.mock_calls w ++ [Mock.asyncify (attempt self)] /\
        Mock.await_count w' = S (Mock.await_count w) /\
        Mock.call_count w' = Mock.call_count w) /\
    py_bool 1 = true /\ py_bool 0 = false.
Proof.
  intros fuel self w. split; [|split].
  - exists (attempted self w). unfold acquire. cbn [negb].
    rewrite consume_mock. repeat split.
  - exists (aattempted self w). unfold aacquire. cbn [negb].
    rewrite aconsume_mock. repeat split.
  - split; reflexivity.
Qed.




(** ** The asynchronous call mirrors the synchronous one *)








(* ===================================================================== *)
(** * Keys *)
(* ===================================================================== *)

Lemma list_ascii_of_append (s t : string) :
  String.list_ascii_of_string (s ++ t)%string =
  String.list_ascii_of_string s ++ String.list_ascii_of_string t.
Proof. induction s as [|c s IH]; simpl; [reflexivity|]. f_equal. exact IH. Qed.

Lemma append_suffix_inj (suffix s1 s2 : string) :
  (s1 ++ suffix)%string = (s2 ++ suffix)%string -> s1 = s2.
Proof.
  intros Heq. apply (f_equal String.list_ascii_of_string) in Heq.
  rewrite !list_ascii_of_append in Heq. apply app_inv_tail in Heq.
  rewrite <- (String.string_of_list_ascii_of_string s1),
          <- (String.string_of_list_ascii_of_string s2), Heq.
  reflexivity.
Qed.

Lemma bucket_key_inj (a b : RedisRateLimiter) :
  bucket_key a = bucket_key b -> key_prefix a = key_prefix b.
Proof. apply append_suffix_inj. Qed.

Lemma calls_since_step (w w1 w2 : Mock.world) (c : Mock.call) cs key :
  Mock.mock_calls w1 = Mock.mock_calls w ++ [c] ->
  all_on_key key [c] ->
  calls_since w1 w2 cs /\ all_on_key key cs ->
  calls_since w w2 (c :: cs) /\ all_on_key key (c :: cs).
Proof.
  intros Hw1 Hc [Hcs Hall]. split.
  - unfold calls_since in *. rewrite Hcs, Hw1, <- app_assoc. reflexivity.
  - inversion Hc; subst. constructor; assumption.
Qed.

Lemma acquire_loop_keys self fuel :
  forall w : Mock.world,
    exists cs, calls_since w (snd (acquire_loop fuel self w)) cs /\
               all_on_key (bucket_key self) cs.
Proof.
  induction fuel as [|fuel IH]; intros w.
  - exists []. split; [symmetry; apply app_nil_r|constructor].
  - cbn [acquire_loop]. rewrite consume_mock.
    destruct (py_bool _); cbn [negb snd].
    + exists [attempt self]. split; [reflexivity|].
      constructor; [reflexivity|constructor].
    + unfold time_sleep. destruct (Qle_bool 0 (check_every_n_seconds self)).
      * destruct (IH (paused self w)) as (cs & Hcs).
        exists (attempt self :: pause self :: cs).
        apply (calls_since_step w (attempted self w)); [reflexivity| |].
        { constructor; [reflexivity|constructor]. }
        apply (calls_since_step (attempted self w) (paused self w)); [reflexivity| |].
        { constructor; [exact I|constructor]. }
        exact Hcs.
      * exists [attempt self]. split; [reflexivity|].
        constructor; [reflexivity|constructor].
Qed.

Lemma aacquire_loop_keys self fuel :
  forall w : Mock.world,
    exists cs, calls_since w (snd (aacquire_loop fuel self w)) cs /\
               all_on_key (bucket_key self) cs.
Proof.
  induction fuel as [|fuel IH]; intros w.
  - exists []. split; [symmetry; apply app_nil_r|constructor].
  - cbn [aacquire_loop]. rewrite aconsume_mock.
    destruct (py_bool _); cbn [negb snd].
    + exists [Mock.asyncify (attempt self)]. split; [reflexivity|].
      constructor; [reflexivity|constructor].
    + destruct (IH (apaused self w)) as (cs & Hcs).
      exists (Mock.asyncify (attempt self) :: Mock.asyncify (pause self) :: cs).
      apply (calls_since_step w (aattempted self w)); [reflexivity| |].
      { constructor; [reflexivity|constructor]. }
      apply (calls_since_step (aattempted self w) (apaused self w)); [reflexivity| |].
      { constructor; [exact I|constructor]. }
      exact Hcs.
Qed.

Lemma acquire_keys self blocking fuel (w : Mock.world) :
  (exists cs, calls_since w (snd (acquire fuel self blocking w)) cs /\
              all_on_key (bucket_key self) cs) /\
  (exists cs, calls_since w (snd (aacquire fuel self blocking w)) cs /\
              all_on_key (bucket_key self) cs).
Proof.
  unfold acquire, aacquire. destruct blocking; cbn [negb].
  - split; [apply acquire_loop_keys | apply aacquire_loop_keys].
  - rewrite consume_mock, aconsume_mock. cbn [snd]. split.
    + exists [attempt self]. split; [reflexivity|].
      constructor; [reflexivity|constructor].
    + exists [Mock.asyncify (attempt self)]. split; [reflexivity|].
      constructor; [reflexivity|constructor].
Qed.

(** ** On a Redis server: what an acquisition touches and what it reads *)

Lemma script_local key (max rps : Q) (s1 s2 : server Q) :
  agree_on key s1 s2 ->
  fst (_LUA_SCRIPT key max rps s1) = fst (_LUA_SCRIPT key max rps s2) /\
  agree_on key (snd (_LUA_SCRIPT key max rps s1)) (snd (_LUA_SCRIPT key max rps s2)).
Proof.
  intros [Hclock Hkey]. rewrite !script_run. cbn [fst snd].
  assert (stored (db s1) key = stored (db s2) key) as Hst
    by (unfold stored; rewrite Hkey; reflexivity).
  assert (fields_of (db s1) key = fields_of (db s2) key) as Hf
    by (unfold fields_of; rewrite Hkey; reflexivity).
  rewrite Hclock, Hst, Hf. split; [reflexivity|].
  split; cbn [clock db]; [reflexivity|].
  rewrite !lookup_insert_eq. reflexivity.
Qed.

Lemma sleep_local key d (s1 s2 : server Q) :
  agree_on key s1 s2 -> agree_on key (Live.sleep d s1) (Live.sleep d s2).
Proof.
  intros [Hclock Hkey]. split; cbn; [rewrite Hclock; reflexivity | exact Hkey].
Qed.

Lemma consume_live self (s : server Q) :
  _consume self s =
  (py_bool (fst (_LUA_SCRIPT (bucket_key self) (max_bucket_size self)
                   (requests_per_second self) s)),
   snd (_LUA_SCRIPT (bucket_key self) (max_bucket_size self)
          (requests_per_second self) s)).
Proof.
  unfold _consume, _execute_lua. cbn [client_eval Live.runtime].
  destruct (_LUA_SCRIPT _ _ _ s). reflexivity.
Qed.

(** On a Redis server the two clients reach the same script. *)
Lemma aconsume_live self (s : server Q) : _aconsume self s = _consume self s.
Proof. reflexivity. Qed.

Lemma asyncio_sleep_local key d (s1 s2 : server Q) :
  agree_on key s1 s2 -> agree_on key (asyncio_sleep d s1) (asyncio_sleep d s2).
Proof.
  intros Hag. cbn [asyncio_sleep Live.runtime].
  destruct (Qle_bool d 0); [exact Hag | apply sleep_local, Hag].
Qed.

Lemma asyncio_sleep_frame d (s : server Q) : db (asyncio_sleep d s) = db s.
Proof. cbn [asyncio_sleep Live.runtime]. destruct (Qle_bool d 0); reflexivity. Qed.

Lemma acquire_loop_local self fuel :
  forall s1 s2 : server Q,
    agree_on (bucket_key self) s1 s2 ->
    fst (acquire_loop fuel self s1) = fst (acquire_loop fuel self s2) /\
    agree_on (bucket_key self)
      (snd (acquire_loop fuel self s1)) (snd (acquire_loop fuel self s2)).
Proof.
  induction fuel as [|fuel IH]; intros s1 s2 Hag; [split; [reflexivity|exact Hag]|].
  cbn [acquire_loop]. rewrite !consume_live.
  destruct (script_local (bucket_key self) (max_bucket_size self)
              (requests_per_second self) s1 s2 Hag) as [Hr Hs].
  rewrite Hr. destruct (py_bool _); cbn [negb].
  - split; [reflexivity|exact Hs].
  - unfold time_sleep. destruct (Qle_bool 0 (check_every_n_seconds self)).
    + apply IH, sleep_local, Hs.
    + split; [reflexivity|exact Hs].
Qed.

Lemma aacquire_loop_local self fuel :
  forall s1 s2 : server Q,
    agree_on (bucket_key self) s1 s2 ->
    fst (aacquire_loop fuel self s1) = fst (aacquire_loop fuel self s2) /\
    agree_on (bucket_key self)
      (snd (aacquire_loop fuel self s1)) (snd (aacquire_loop fuel self s2)).
Proof.
  induction fuel as [|fuel IH]; intros s1 s2 Hag; [split; [reflexivity|exact Hag]|].
  cbn [aacquire_loop]. rewrite !aconsume_live, !consume_live.
  destruct (script_local (bucket_key self) (max_bucket_size self)
              (requests_per_second self) s1 s2 Hag) as [Hr Hs].
  rewrite Hr. destruct (py_bool _); cbn [negb].
  - split; [reflexivity|exact Hs].
  - apply IH, asyncio_sleep_local, Hs.
Qed.

Lemma acquire_local self blocking fuel (s1 s2 : server Q) :
  agree_on (bucket_key self) s1 s2 ->
  fst (acquire fuel self blocking s1) = fst (acquire fuel self blocking s2) /\
  agree_on (bucket_key self)
    (snd (acquire fuel self blocking s1)) (snd (acquire fuel self blocking s2)).
Proof.
  intros Hag. unfold acquire. destruct blocking; cbn [negb].
  - apply acquire_loop_local, Hag.
  - rewrite !consume_live. cbn [fst snd].
    destruct (script_local (bucket_key self) (max_bucket_size self)
                (requests_per_second self) s1 s2 Hag) as [Hr Hs].
    rewrite Hr. split; [reflexivity|exact Hs].
Qed.

Lemma acquire_loop_frame self fuel (other : string) :
  other ≠ bucket_key self ->
  forall s : server Q, db (snd (acquire_loop fuel self s)) !! other = db s !! other.
Proof.
  intros Hne. induction fuel as [|fuel IH]; intros s; [reflexivity|].
  cbn [acquire_loop]. rewrite consume_live.
  pose proof (script_frame (bucket_key self) (max_bucket_size self)
                (requests_per_second self) s other Hne) as Hf.
  destruct (py_bool _); cbn [negb snd].
  - exact Hf.
  - unfold time_sleep. destruct (Qle_bool 0 (check_every_n_seconds self)).
    + rewrite IH. exact Hf.
    + exact Hf.
Qed.

Lemma aacquire_loop_frame self fuel (other : string) :
  other ≠ bucket_key self ->
  forall s : server Q, db (snd (aacquire_loop fuel self s)) !! other = db s !! other.
Proof.
  intros Hne. induction fuel as [|fuel IH]; intros s; [reflexivity|].
  cbn [aacquire_loop]. rewrite aconsume_live, consume_live.
  pose proof (script_frame (bucket_key self) (max_bucket_size self)
                (requests_per_second self) s other Hne) as Hf.
  destruct (py_bool _); cbn [negb snd].
  - exact Hf.
  - rewrite IH, asyncio_sleep_frame. exact Hf.
Qed.

Lemma acquire_frame self blocking fuel (other : string) (s : server Q) :
  other ≠ bucket_key self ->
  db (snd (acquire fuel self blocking s)) !! other = db s !! other.
Proof.
  intros Hne. unfold acquire. destruct blocking; cbn [negb].
  - apply acquire_loop_frame, Hne.
  - rewrite consume_live. cbn [snd]. apply script_frame, Hne.
Qed.

Lemma aacquire_local self blocking fuel (s1 s2 : server Q) :
  agree_on (bucket_key self) s1 s2 ->
  fst (aacquire fuel self blocking s1) = fst (aacquire fuel self blocking s2) /\
  agree_on (bucket_key self)
    (snd (aacquire fuel self blocking s1)) (snd (aacquire fuel self blocking s2)).
Proof.
  intros Hag. unfold aacquire. destruct blocking; cbn [negb].
  - apply aacquire_loop_local, Hag.
  - rewrite !aconsume_live, !consume_live. cbn [fst snd].
    destruct (script_local (bucket_key self) (max_bucket_size self)
                (requests_per_second self) s1 s2 Hag) as [Hr Hs].
    rewrite Hr. split; [reflexivity|exact Hs].
Qed.

Lemma aacquire_frame self blocking fuel (other : string) (s : server Q) :
  other ≠ bucket_key self ->
  db (snd (aacquire fuel self blocking s)) !! other = db s !! other.
Proof.
  intros Hne. unfold aacquire. destruct blocking; cbn [negb].
  - apply aacquire_loop_frame, Hne.
  - rewrite aconsume_live, consume_live. cbn [snd]. apply script_frame, Hne.
Qed.

(** C8.  Every call of [eval] an acquisition makes, synchronous or
    asynchronous, blocking or not, returned or still polling, is on the key
    [key_prefix ++ ":rate_limit"].  For two limiters with different
    prefixes these keys differ; an acquisition of the one on a Redis server
    leaves what the server holds under the key of the other as it was; and
    its outcome and what it leaves under its own key depend on the clock
    and on what the server holds under its own key, on nothing else the
    server holds. *)
Theorem prefixes_keep_buckets_apart :
  forall a b : RedisRateLimiter,
    key_prefix a ≠ key_prefix b ->
    let key_a := (key_prefix a ++ ":rate_limit")%string in
    let key_b := (key_prefix b ++ ":rate_limit")%string in
    (forall fuel blocking (w : Mock.world),
        (exists cs, calls_since w (snd (acquire fuel a blocking w)) cs /\
                    all_on_key key_a cs) /\
        (exists cs, calls_since w (snd (aacquire fuel a blocking w)) cs /\
                    all_on_key key_a cs)) /\
    key_a ≠ key_b /\
    (forall fuel blocking (s : server Q),
        db (snd (acquire fuel a blocking s)) !! key_b = db s !! key_b /\
        db (snd (aacquire fuel a blocking s)) !! key_b = db s !! key_b) /\
    (forall fuel blocking (s1 s2 : server Q),
        clock s1 = clock s2 ->
        db s1 !! key_a = db s2 !! key_a ->
        (fst (acquire fuel a blocking s1) = fst (acquire fuel a blocking s2) /\
         db (snd (acquire fuel a blocking s1)) !! key_a
         = db (snd (acquire fuel a blocking s2)) !! key_a) /\
        (fst (aacquire fuel a blocking s1) = fst (aacquire fuel a blocking s2) /\
         db (snd (aacquire fuel a blocking s1)) !! key_a
         = db (snd (aacquire fuel a blocking s2)) !! key_a)).
Proof.
  intros a b Hne key_a key_b.
  assert (key_a ≠ key_b) as Hkeys.
  { intros Heq. apply Hne. exact (bucket_key_inj a b Heq). }
  split; [|split; [exact Hkeys|split]].
  - intros fuel blocking w. apply acquire_keys.
  - intros fuel blocking s.
    assert (key_b ≠ bucket_key a) as Hne' by (intros Heq; apply Hkeys; symmetry; exact Heq).
    split; [apply acquire_frame, Hne' | apply aacquire_frame, Hne'].
  - intros fuel blocking s1 s2 Hclock Hkey.
    assert (agree_on (bucket_key a) s1 s2) as Hag by (split; assumption).
    destruct (acquire_local a blocking fuel s1 s2 Hag) as (Hr & _ & Hdb).
    destruct (aacquire_local a blocking fuel s1 s2 Hag) as (Hra & _ & Hdba).
    split; split; assumption.
Qed.

Lemma prefixes_keep_buckets_apart_witness :
  key_prefix (limiter_with_prefix "prefix_a") ≠ key_prefix (limiter_with_prefix "prefix_b") /\
  "prefix_a:rate_limit" ≠ "prefix_b:rate_limit".
Proof.
  assert (key_prefix (limiter_with_prefix "prefix_a")
          ≠ key_prefix (limiter_with_prefix "prefix_b")) as Hne.
  { vm_compute. discriminate. }
  split; [exact Hne|].
  exact (proj1 (proj2 (prefixes_keep_buckets_apart
                         (limiter_with_prefix "prefix_a")
                         (limiter_with_prefix "prefix_b") Hne))).
Defined.

(* ===================================================================== *)
(** * The scenario of the specification, on a Redis server *)
(* ===================================================================== *)

(** [max_bucket_size = 1], [requests_per_second = 1], a fresh key: the
    first non-blocking [acquire] returns [True], the second, at once,
    [False], and a third one after a sleep of one second [True]. *)
Example grant_deny_wait_grant :
  let s0 := set_clock (100, 0) fresh_server in
  let s1 := snd (acquire 0 default_limiter false s0) in
  let s2 := snd (acquire 0 default_limiter false s1) in
  fst (acquire 0 default_limiter false s0) = Some (Returns true) /\
  fst (acquire 0 default_limiter false s1) = Some (Returns false) /\
  fst (acquire 0 default_limiter false (Live.sleep 1 s2)) = Some (Returns true).
Proof. cbv zeta. split; [|split]; vm_compute; reflexivity. Qed.

(* ===================================================================== *)
(** * Further properties of the script *)
(* ===================================================================== *)

(** ** Waiting never hurts *)

Lemma refilled_monotone (b : option (Q * Q)) (now1 now2 max rps : Q) :
  (0 <= rps)%Q -> (now1 <= now2)%Q ->
  (refilled b now1 max rps <= refilled b now2 max rps)%Q.
Proof.
  intros Hrps Hnow. destruct b as [[tokens l]|].
  - rewrite !refilled_spec. unfold spec_tokens.
    assert (Qmax 0 (now1 - l) <= Qmax 0 (now2 - l))%Q as Hel.
    { apply Q.max_le_compat_l. lra. }
    assert (0 <= (Qmax 0 (now2 - l) - Qmax 0 (now1 - l)) * rps)%Q as Hd
      by (apply Qmult_le_0_compat; lra).
    assert (Qmax 0 (now1 - l) * rps <= Qmax 0 (now2 - l) * rps)%Q as Hm.
    { assert ((Qmax 0 (now2 - l) - Qmax 0 (now1 - l)) * rps
              == Qmax 0 (now2 - l) * rps - Qmax 0 (now1 - l) * rps)%Q as Hr by ring.
      lra. }
    apply Q.min_le_compat_l. lra.
  - rewrite !refilled_absent. lra.
Qed.

(** X3.  Waiting never hurts.  With [requests_per_second >= 0]: if an
    execution at one clock reading is granted, then the execution at any
    later reading, in its place, is granted as well. *)
Theorem later_attempt_is_granted_too :
  forall (key : string) (max_bucket_size requests_per_second : Q) (s : server Q)
         (t1 t2 : Z * Z),
    (0 <= requests_per_second)%Q ->
    (current_time_of t1 <= current_time_of t2)%Q ->
    fst (_LUA_SCRIPT key max_bucket_size requests_per_second (set_clock t1 s)) = 1 ->
    fst (_LUA_SCRIPT key max_bucket_size requests_per_second (set_clock t2 s)) = 1.
Proof.
  intros key max rps s t1 t2 Hrps H12. rewrite !script_reply.
  cbn [set_clock clock db]. exact_numbers.
  pose proof (refilled_monotone (stored (db s) key) _ _ max rps Hrps H12) as Hm.
  destruct (Lua.ge (refilled (stored (db s) key) (current_time_of t1) max rps) 1%Q)
    eqn:E1; [|discriminate].
  intros _. apply lua_ge_true in E1.
  assert (Lua.ge (refilled (stored (db s) key) (current_time_of t2) max rps) 1%Q = true)
    as ->; [|reflexivity].
  apply lua_ge_true. lra.
Qed.

Lemma later_attempt_is_granted_too_witness :
  fst (_LUA_SCRIPT "app:rate_limit" 3%Q (1 # 2)%Q
         (set_clock (103, 0)
            (server_holding "app:rate_limit" (1 # 4)%Q 100%Q (100, 0))))
  = 1.
Proof.
  apply (later_attempt_is_granted_too "app:rate_limit" 3%Q (1 # 2)%Q
           (server_holding "app:rate_limit" (1 # 4)%Q 100%Q (100, 0))
           (102, 0) (103, 0)).
  - vm_compute. discriminate.
  - vm_compute. discriminate.
  - vm_compute. reflexivity.
Defined.

(** ** Buckets the script cannot read, and what it leaves alone *)

Lemma unreadable_stored {N} (d : gmap string (entry N)) key :
  unreadable d key -> stored d key = None.
Proof.
  unfold stored. intros [-> | (e & -> & [Hn | Hn])]; [reflexivity| |].
  - rewrite Hn. reflexivity.
  - rewrite Hn. destruct (tonumber (hash e !! "tokens")); reflexivity.
Qed.

(** X5.  A bucket the script cannot read counts as an absent one.  When
    one of the fields [tokens] and [last_refill] is missing or is not a
    number, whatever the other field holds, the reply and the bucket
    stored are those the script gives on the same server without the key:
    the tokens it starts from are [max_bucket_size], the time of the last
    refill is the current time, and what the unreadable fields held is
    overwritten.  On the doubles of Lua. *)
Theorem unreadable_bucket_is_reset :
  forall (key : string) (max_bucket_size requests_per_second : float)
         (s : server float),
    unreadable (db s) key ->
    let without := set_db (delete key (db s)) s in
    let current_time := current_time_of (clock s) in
    let tokens :=
      refilled (Some (max_bucket_size, current_time)) current_time
               max_bucket_size requests_per_second in
    fst (_LUA_SCRIPT key max_bucket_size requests_per_second s) =
      fst (_LUA_SCRIPT key max_bucket_size requests_per_second without) /\
    fst (_LUA_SCRIPT key max_bucket_size requests_per_second s) =
      (if (1 <=? tokens)%float then 1 else 0) /\
    stored (db (snd (_LUA_SCRIPT key max_bucket_size requests_per_second s))) key =
      stored (db (snd (_LUA_SCRIPT key max_bucket_size requests_per_second
                         without))) key /\
    stored (db (snd (_LUA_SCRIPT key max_bucket_size requests_per_second s))) key =
      Some (if (1 <=? tokens)%float then (tokens - 1)%float else tokens,
            current_time).
Proof.
  intros key max rps s Hun without current_time tokens.
  apply unreadable_stored in Hun.
  assert (stored (db without) key = None) as Hwo.
  { unfold stored, without. cbn [set_db db]. rewrite lookup_delete_eq. reflexivity. }
  rewrite !script_reply, !script_stored, Hun, Hwo.
  repeat split; reflexivity.
Qed.

Lemma unreadable_bucket_is_reset_witness :
  fst (_LUA_SCRIPT "app:rate_limit" 3%float 1%float server_with_garbled_tokens) = 1 /\
  stored (db (snd (_LUA_SCRIPT "app:rate_limit" 3%float 1%float
                     server_with_garbled_tokens))) "app:rate_limit"
    = Some (2%float, 200%float).
Proof.
  assert (unreadable (db server_with_garbled_tokens) "app:rate_limit") as Hun.
  { right. eexists. split; [vm_compute; reflexivity|]. left. vm_compute. reflexivity. }
  destruct (unreadable_bucket_is_reset "app:rate_limit" 3%float 1%float
              server_with_garbled_tokens Hun) as (_ & Hr & _ & Hs).
  split; [exact Hr | exact Hs].
Defined.

(** X6.  One execution touches the two fields of its own key and nothing
    else: every other field of the hash under the key, everything the
    server holds under any other key, and the clock are as before. *)
Theorem script_leaves_the_rest :
  forall (key : string) (max_bucket_size requests_per_second : Q) (s : server Q),
    let s' := snd (_LUA_SCRIPT key max_bucket_size requests_per_second s) in
    (forall field : string,
        field ≠ "tokens" -> field ≠ "last_refill" ->
        fields_of (db s') key !! field = fields_of (db s) key !! field) /\
    (forall other : string, other ≠ key -> db s' !! other = db s !! other) /\
    clock s' = clock s.
Proof.
  intros key max rps s s'. subst s'. split; [|split].
  - intros field Ht Hl. rewrite script_run. cbn [snd db]. unfold fields_of at 1.
    rewrite lookup_insert_eq. cbn [hash].
    rewrite lookup_insert_ne by congruence.
    rewrite lookup_insert_ne by congruence. reflexivity.
  - intros other Hne. apply script_frame, Hne.
  - apply script_clock.
Qed.




(* ===================================================================== *)
(** * Further properties of the client *)
(* ===================================================================== *)

(** ** Callers that share a prefix share a bucket *)

Lemma set_clock_same (s : server Q) : set_clock (clock s) s = s.
Proof. destruct s. reflexivity. Qed.

Lemma holds_at_clock key max j (s s' : server Q) :
  clock s' = clock s ->
  holds key max (clock s) j s' -> holds key max (clock s') j s'.
Proof. intros ->. exact id. Qed.

Lemma acquire_each_burst (prefix : string) (M : nat) :
  forall (callers : list RedisRateLimiter) (j : nat) (s : server Q),
    Forall (fun c => key_prefix c = prefix /\ max_bucket_size c = Qnat M) callers ->
    holds (prefix ++ ":rate_limit")%string (Qnat M) (clock s) (Qnat j) s ->
    fst (acquire_each callers s) =
    repeat (Some (Returns true)) (Nat.min (length callers) j)
    ++ repeat (Some (Returns false)) (length callers - j).
Proof.
  induction callers as [|c callers IH]; intros j s Hall Hj; [reflexivity|].
  inversion Hall as [|c' cs' [Hprefix Hsize] Hrest]; subst c' cs'.
  cbn [acquire_each length]. unfold acquire at 1. cbn [negb].
  rewrite consume_live. unfold bucket_key. rewrite Hprefix, Hsize.
  pose proof (script_takes_one (prefix ++ ":rate_limit")%string (Qnat M)
                (requests_per_second c) (clock s) (Qnat j) s Hj) as Hstep.
  pose proof (script_clock (prefix ++ ":rate_limit")%string (Qnat M)
                (requests_per_second c) s) as Hclock.
  rewrite set_clock_same in Hstep.
  destruct (_LUA_SCRIPT (prefix ++ ":rate_limit")%string (Qnat M)
              (requests_per_second c) s) as [reply s1].
  cbn [fst snd] in *. destruct Hstep as [Hreply Hj'].
  destruct j as [|j].
  - change (Lua.ge (Qnat 0) 1%Q) with false in Hreply, Hj'.
    apply (holds_at_clock _ _ _ s s1 Hclock) in Hj'.
    specialize (IH O s1 Hrest Hj').
    destruct (acquire_each callers s1) as [results s2]. cbn [fst] in *.
    rewrite Hreply, IH. cbn [py_bool Z.eqb negb Nat.min Nat.sub].
    rewrite Nat.min_0_r, Nat.sub_0_r. reflexivity.
  - assert (Lua.ge (Qnat (S j)) 1%Q = true) as E.
    { apply lua_ge_true. rewrite Qnat_S. pose proof (Qnat_nonneg j). lra. }
    rewrite E in Hreply, Hj'.
    apply (holds_eq _ _ _ _ (Qnat j)) in Hj'; [|rewrite Qnat_S; ring].
    apply (holds_at_clock _ _ _ s s1 Hclock) in Hj'.
    specialize (IH j s1 Hrest Hj').
    destruct (acquire_each callers s1) as [results s2]. cbn [fst] in *.
    rewrite Hreply, IH. reflexivity.
Qed.

(** The callers act at one reading of the clock: no non-blocking call
    lets time pass. *)
Lemma acquire_each_clock (callers : list RedisRateLimiter) :
  forall s : server Q, clock (snd (acquire_each callers s)) = clock s.
Proof.
  induction callers as [|c callers IH]; intros s; [reflexivity|].
  cbn [acquire_each]. unfold acquire at 1. cbn [negb]. rewrite consume_live.
  specialize (IH (snd (_LUA_SCRIPT (bucket_key c) (max_bucket_size c)
                         (requests_per_second c) s))).
  destruct (acquire_each callers _) as [results s2]. cbn [snd] in *.
  rewrite IH. apply script_clock.
Qed.

(** X9.  Callers whose limiters have the same [key_prefix] and the same
    whole [max_bucket_size = M] draw on one bucket, whatever their other
    settings: when they make one non-blocking [acquire] each, one after
    the other, on a server that does not hold the key, the first [M]
    callers get [True] and all later ones [False]. *)
Theorem callers_share_one_bucket :
  forall (callers : list RedisRateLimiter) (prefix : string) (M : nat)
         (s : server Q),
    Forall (fun c => key_prefix c = prefix /\ max_bucket_size c = Qnat M) callers ->
    db s !! (prefix ++ ":rate_limit")%string = None ->
    fst (acquire_each callers s) =
    repeat (Some (Returns true)) (Nat.min (length callers) M)
    ++ repeat (Some (Returns false)) (length callers - M).
Proof.
  intros callers prefix M s Hall Hfresh. apply (acquire_each_burst prefix M).
  - exact Hall.
  - left. split; [|reflexivity]. unfold stored. rewrite Hfresh. reflexivity.
Qed.

Lemma callers_share_one_bucket_witness :
  fst (acquire_each shared_callers fresh_server)
  = [Some (Returns true); Some (Returns true); Some (Returns false)].
Proof.
  apply (callers_share_one_bucket shared_callers "shared" 2 fresh_server).
  - repeat constructor.
  - reflexivity.
Defined.

(** X13.  Limiters built for one Redis URL without [key_prefix] and
    [max_bucket_size] all use the key ["langchain_limiter:rate_limit"] and
    a bucket of one token, whatever their rate and polling interval: when
    their callers make one non-blocking [acquire] each, one after the
    other at one reading of the clock of the server, on a server that does
    not hold that key, the first gets [True] and every other one
    [False]. *)
Theorem default_limiters_share_one_token :
  forall (url : string) (settings : list (option Q * option Q)) (s : server Q),
    db s !! "langchain_limiter:rate_limit" = None ->
    Forall (fun self => redis_url self = url /\
                        key_prefix self = "langchain_limiter" /\
                        max_bucket_size self = 1%Q)
           (built_with_defaults url settings) /\
    fst (acquire_each (built_with_defaults url settings) s) =
    match settings with
    | [] => []
    | _ :: others =>
        Some (Returns true) :: repeat (Some (Returns false)) (length others)
    end /\
    clock (snd (acquire_each (built_with_defaults url settings) s)) = clock s.
Proof.
  intros url settings s Hfresh.
  assert (Forall (fun self => redis_url self = url /\
                              key_prefix self = "langchain_limiter" /\
                              max_bucket_size self = 1%Q)
            (built_with_defaults url settings)) as Hbuilt.
  { unfold built_with_defaults. induction settings as [|[rps check] settings IH];
      constructor; [repeat split | exact IH]. }
  split; [exact Hbuilt|]. split.
  - assert (Forall (fun c => key_prefix c = "langchain_limiter" /\
                             max_bucket_size c = Qnat 1)
              (built_with_defaults url settings)) as Hall.
    { eapply Forall_impl; [exact Hbuilt|]. intros c (_ & Hp & Hm). split; assumption. }
    rewrite (acquire_each_burst "langchain_limiter" 1 _ 1 s Hall).
    + unfold built_with_defaults. rewrite length_map.
      destruct settings as [|setting others]; [reflexivity|].
      cbn [length Nat.min Nat.sub repeat app]. rewrite Nat.min_0_r, Nat.sub_0_r.
      reflexivity.
    + left. split; [|reflexivity]. unfold stored.
      change ("langchain_limiter" ++ ":rate_limit")%string
        with "langchain_limiter:rate_limit". rewrite Hfresh. reflexivity.
  - apply acquire_each_clock.
Qed.

Lemma default_limiters_share_one_token_witness :
  fst (acquire_each
         (built_with_defaults "redis://a:6379"
            [(None, None); (Some 100%Q, Some (1 # 2)%Q)])
         fresh_server)
  = [Some (Returns true); Some (Returns false)].
Proof.
  apply (default_limiters_share_one_token "redis://a:6379"
           [(None, None); (Some 100%Q, Some (1 # 2)%Q)] fresh_server).
  reflexivity.
Defined.

(** ** Each call stays on its side *)

Lemma sync_calls_step (w w1 w2 : Mock.world) (c : Mock.call) cs :
  Mock.mock_calls w1 = Mock.mock_calls w ++ [c] ->
  is_sync_call c ->
  calls_since w1 w2 cs /\ Forall is_sync_call cs ->
  calls_since w w2 (c :: cs) /\ Forall is_sync_call (c :: cs).
Proof.
  intros Hw1 Hc [Hcs Hall]. split.
  - unfold calls_since in *. rewrite Hcs, Hw1, <- app_assoc. reflexivity.
  - constructor; assumption.
Qed.

Lemma async_calls_step (w w1 w2 : Mock.world) (c : Mock.call) cs :
  Mock.mock_calls w1 = Mock.mock_calls w ++ [c] ->
  is_async_call c ->
  calls_since w1 w2 cs /\ Forall is_async_call cs ->
  calls_since w w2 (c :: cs) /\ Forall is_async_call (c :: cs).
Proof.
  intros Hw1 Hc [Hcs Hall]. split.
  - unfold calls_since in *. rewrite Hcs, Hw1, <- app_assoc. reflexivity.
  - constructor; assumption.
Qed.

Lemma acquire_loop_sync self fuel :
  forall w : Mock.world,
    (exists cs, calls_since w (snd (acquire_loop fuel self w)) cs /\
                Forall is_sync_call cs) /\
    Mock.await_count (snd (acquire_loop fuel self w)) = Mock.await_count w.
Proof.
  induction fuel as [|fuel IH]; intros w.
  - split; [|reflexivity]. exists []. split; [symmetry; apply app_nil_r|constructor].
  - cbn [acquire_loop]. rewrite consume_mock.
    destruct (py_bool _); cbn [negb snd].
    + split; [|reflexivity]. exists [attempt self]. split; [reflexivity|].
      constructor; [exact I|constructor].
    + unfold time_sleep. destruct (Qle_bool 0 (check_every_n_seconds self)).
      * destruct (IH (paused self w)) as [(cs & Hcs) Hcount].
        split; [|exact Hcount].
        exists (attempt self :: pause self :: cs).
        apply (sync_calls_step w (attempted self w)); [reflexivity|exact I|].
        apply (sync_calls_step (attempted self w) (paused self w)); [reflexivity|exact I|].
        exact Hcs.
      * split; [|reflexivity]. exists [attempt self]. split; [reflexivity|].
        constructor; [exact I|constructor].
Qed.

Lemma aacquire_loop_async self fuel :
  forall w : Mock.world,
    (exists cs, calls_since w (snd (aacquire_loop fuel self w)) cs /\
                Forall is_async_call cs) /\
    Mock.call_count (snd (aacquire_loop fuel self w)) = Mock.call_count w.
Proof.
  induction fuel as [|fuel IH]; intros w.
  - split; [|reflexivity]. exists []. split; [symmetry; apply app_nil_r|constructor].
  - cbn [aacquire_loop]. rewrite aconsume_mock.
    destruct (py_bool _); cbn [negb snd].
    + split; [|reflexivity]. exists [Mock.asyncify (attempt self)].
      split; [reflexivity|]. constructor; [exact I|constructor].
    + destruct (IH (apaused self w)) as [(cs & Hcs) Hcount].
      split; [|exact Hcount].
      exists (Mock.asyncify (attempt self) :: Mock.asyncify (pause self) :: cs).
      apply (async_calls_step w (aattempted self w)); [reflexivity|exact I|].
      apply (async_calls_step (aattempted self w) (apaused self w)); [reflexivity|exact I|].
      exact Hcs.
Qed.

(** X10.  [acquire], blocking or not, returned or still polling, calls
    [eval] of the synchronous client and [time.sleep] and nothing else: it
    never touches the asynchronous client and never calls
    [asyncio.sleep].  [aacquire] calls [eval] of the asynchronous client
    and [asyncio.sleep] and nothing else. *)
Theorem each_call_stays_on_its_side :
  forall (self : RedisRateLimiter) (blocking : bool) (fuel : nat)
         (w : Mock.world),
    ((exists cs, calls_since w (snd (acquire fuel self blocking w)) cs /\
                 Forall is_sync_call cs) /\
     Mock.await_count (snd (acquire fuel self blocking w)) = Mock.await_count w) /\
    ((exists cs, calls_since w (snd (aacquire fuel self blocking w)) cs /\
                 Forall is_async_call cs) /\
     Mock.call_count (snd (aacquire fuel self blocking w)) = Mock.call_count w).
Proof.
  intros self blocking fuel w. unfold acquire, aacquire.
  destruct blocking; cbn [negb].
  - split; [apply acquire_loop_sync | apply aacquire_loop_async].
  - rewrite consume_mock, aconsume_mock. cbn [snd]. split.
    + split; [|reflexivity]. exists [attempt self]. split; [reflexivity|].
      constructor; [exact I|constructor].
    + split; [|reflexivity]. exists [Mock.asyncify (attempt self)].
      split; [reflexivity|]. constructor; [exact I|constructor].
Qed.

(** ** The asynchronous call polls like the synchronous one *)

Lemma after_apolls_world self (n : nat) :
  forall w : Mock.world,
    Mock.aside_effect (after_apolls self n w) = Mock.aside_effect w /\
    Mock.await_count (after_apolls self n w) = (Mock.await_count w + n)%nat /\
    Mock.mock_calls (after_apolls self n w)
    = Mock.mock_calls w ++ map Mock.asyncify (polls self n).
Proof.
  induction n as [|n IH]; intros w; cbn [after_apolls].
  - rewrite Nat.add_0_r. unfold polls. cbn. rewrite app_nil_r. repeat split.
  - destruct (IH (apaused self w)) as (Hse & Hac & Hmc).
    rewrite Hse, Hac, Hmc. cbn. rewrite <- !app_assoc.
    repeat split. lia.
Qed.

Lemma aacquire_loop_polling self (n : nat) :
  forall (w : Mock.world) (fuel : nat),
    (forall k, (k < n)%nat ->
               py_bool (Mock.aside_effect w (Mock.await_count w + k)) = false) ->
    aacquire_loop (n + fuel) self w = aacquire_loop fuel self (after_apolls self n w).
Proof.
  induction n as [|n IH]; intros w fuel Hden; [reflexivity|].
  cbn [Nat.add after_apolls aacquire_loop]. rewrite aconsume_mock.
  rewrite <- (Nat.add_0_r (Mock.await_count w)), (Hden O) by lia. cbn [negb].
  apply IH. intros k Hk. cbn. rewrite <- Nat.add_succ_r. apply Hden. lia.
Qed.

(** X11.  [aacquire(blocking=True)] on replies of the asynchronous client
    of which the first [n] are denials: after [fuel <= n] evaluations of
    the loop condition it has not returned and has awaited [eval] [fuel]
    times, each time followed by one [asyncio.sleep] of
    [check_every_n_seconds]; when the reply after the [n] denials is a
    grant, it returns [True] after [n + 1] awaits of [eval] and [n] of
    [asyncio.sleep], and no other call. *)
Theorem blocking_aacquire_polls :
  forall (self : RedisRateLimiter) (w : Mock.world) (n : nat),
    (forall k, (k < n)%nat ->
               py_bool (Mock.aside_effect w (Mock.await_count w + k)) = false) ->
    let apoll := [Mock.aeval_call 1 (key_prefix self ++ ":rate_limit")%string
                    (max_bucket_size self) (requests_per_second self);
                  Mock.asleep_call (check_every_n_seconds self)] in
    (forall fuel, (fuel <= n)%nat ->
       exists w',
         aacquire fuel self true w = (None, w') /\
         Mock.mock_calls w' = Mock.mock_calls w ++ concat (repeat apoll fuel) /\
         Mock.await_count w' = (Mock.await_count w + fuel)%nat) /\
    (py_bool (Mock.aside_effect w (Mock.await_count w + n)) = true ->
     forall fuel, (n < fuel)%nat ->
       exists w',
         aacquire fuel self true w = (Some true, w') /\
         Mock.mock_calls w' =
           Mock.mock_calls w ++ concat (repeat apoll n)
           ++ [Mock.aeval_call 1 (key_prefix self ++ ":rate_limit")%string
                 (max_bucket_size self) (requests_per_second self)] /\
         Mock.await_count w' = (Mock.await_count w + n + 1)%nat).
Proof.
  intros self w n Hden apoll. unfold aacquire. cbn [negb].
  assert (forall k, map Mock.asyncify (polls self k) = concat (repeat apoll k)) as Hpolls.
  { induction k as [|k IHk]; [reflexivity|]. unfold polls in *. cbn [repeat concat].
    rewrite map_app, IHk. reflexivity. }
  split.
  - intros fuel Hfuel. exists (after_apolls self fuel w).
    destruct (after_apolls_world self fuel w) as (_ & Hac & Hmc).
    split; [|split; [rewrite Hmc, Hpolls; reflexivity | exact Hac]].
    rewrite <- (Nat.add_0_r fuel) at 1. apply aacquire_loop_polling.
    intros k Hk. apply Hden. lia.
  - intros Hgr fuel Hfuel. exists (aattempted self (after_apolls self n w)).
    destruct (after_apolls_world self n w) as (Hse & Hac & Hmc).
    split; [|split].
    + replace fuel with (n + S (fuel - S n))%nat by lia.
      rewrite aacquire_loop_polling by exact Hden.
      cbn [aacquire_loop]. rewrite aconsume_mock, Hse, Hac, Hgr. reflexivity.
    + cbn. rewrite Hmc, Hpolls, <- app_assoc. reflexivity.
    + cbn. rewrite Hac. lia.
Qed.

Lemma blocking_aacquire_polls_witness :
  exists w',
    aacquire 2 default_limiter true (Mock.start (replies_of []) (replies_of [0; 1])) =
      (Some true, w') /\
    Mock.mock_calls w' =
      [Mock.aeval_call 1 "langchain_limiter:rate_limit" 1 1;
       Mock.asleep_call (1 # 10);
       Mock.aeval_call 1 "langchain_limiter:rate_limit" 1 1] /\
    Mock.await_count w' = 2%nat.
Proof.
  assert (forall k, (k < 1)%nat ->
            py_bool (Mock.aside_effect (Mock.start (replies_of []) (replies_of [0; 1]))
                       (Mock.await_count (Mock.start (replies_of []) (replies_of [0; 1])) + k))
            = false) as Hden.
  { intros k Hk. replace k with O by lia. reflexivity. }
  destruct (blocking_aacquire_polls default_limiter
              (Mock.start (replies_of []) (replies_of [0; 1])) 1 Hden) as [_ Hgr].
  apply (Hgr eq_refl 2%nat). lia.
Defined.

(* ===================================================================== *)
(** * Further properties on doubles, and of a negative interval *)
(* ===================================================================== *)

(** ** The order of doubles, from their specification *)

Lemma SFltb_SFleb (x m : spec_float) : SFltb x m = true -> SFleb x m = true.
Proof. unfold SFltb, SFleb. destruct (SFcompare x m) as [[| |]|]; easy. Qed.

Lemma SFltb_not_SFleb (x m : spec_float) : SFltb x m = true -> SFleb m x = false.
Proof.
  unfold SFltb, SFleb.
  destruct x as [sx|sx| |sx mx ex], m as [sm|sm| |sm mm em];
    cbn [SFcompare]; try discriminate; try reflexivity;
    repeat match goal with s : bool |- _ => destruct s end;
    try discriminate; try reflexivity.
  all: repeat match goal with
       | |- context [(?a ?= ?b)%Z] =>
           let E := fresh "E" in destruct (Z.compare_spec a b) as [E|E|E]
       | |- context [Pos.compare_cont Eq ?a ?b] =>
           change (Pos.compare_cont Eq a b) with (Pos.compare a b);
           let E := fresh "E" in destruct (Pos.compare_spec a b) as [E|E|E]
       end; cbn [CompOpp]; try discriminate; try reflexivity; try lia.
Qed.

Lemma SFltb_SFleb_trans (x m c : spec_float) :
  SFltb x m = true -> SFltb m c = true -> SFleb c x = false.
Proof.
  unfold SFltb, SFleb.
  destruct x as [sx|sx| |sx mx ex], m as [sm|sm| |sm mm em], c as [sc|sc| |sc mc ec];
    cbn [SFcompare]; try discriminate; try reflexivity;
    repeat match goal with s : bool |- _ => destruct s end;
    try discriminate; try reflexivity.
  all: repeat match goal with
       | |- context [(?a ?= ?b)%Z] =>
           let E := fresh "E" in destruct (Z.compare_spec a b) as [E|E|E]
       | |- context [Pos.compare_cont Eq ?a ?b] =>
           change (Pos.compare_cont Eq a b) with (Pos.compare a b);
           let E := fresh "E" in destruct (Pos.compare_spec a b) as [E|E|E]
       end; cbn [CompOpp]; try discriminate; try reflexivity; try lia.
Qed.

Lemma SFleb_refl_of_number (m : spec_float) :
  SFleb (S754_zero false) m = true -> SFleb m m = true.
Proof.
  unfold SFleb. destruct m as [sm|sm| |sm mm em]; cbn [SFcompare];
    try discriminate; try reflexivity; destruct sm; try discriminate; try reflexivity.
  rewrite Z.compare_refl.
  change (Pos.compare_cont Eq mm mm) with (Pos.compare mm mm).
  rewrite Pos.compare_refl. reflexivity.
Qed.

Lemma double_lt_le (x m : float) :
  (x <? m)%float = true -> (x <=? m)%float = true.
Proof. rewrite ltb_spec, leb_spec. apply SFltb_SFleb. Qed.

Lemma double_lt_not_le (x m : float) :
  (x <? m)%float = true -> (m <=? x)%float = false.
Proof. rewrite ltb_spec, leb_spec. apply SFltb_not_SFleb. Qed.

Lemma double_lt_lt_not_le (x m c : float) :
  (x <? m)%float = true -> (m <? c)%float = true -> (c <=? x)%float = false.
Proof. rewrite !ltb_spec, leb_spec. apply SFltb_SFleb_trans. Qed.

Lemma double_le_refl (m : float) :
  (0 <=? m)%float = true -> (m <=? m)%float = true.
Proof. rewrite !leb_spec. apply SFleb_refl_of_number. Qed.

(** ** Small buckets and full buckets, on doubles *)

(** X15.  On the doubles of Lua a bucket smaller than one token never
    grants: with [max_bucket_size < 1], whatever the rate, the clock and
    the fields stored under the key, numbers or not, the script replies 0,
    and so does every execution of any history of the key. *)
Theorem small_bucket_denies_on_doubles :
  forall (key : string) (max_bucket_size requests_per_second : float),
    (max_bucket_size <? 1)%float = true ->
    (forall s : server float,
        fst (_LUA_SCRIPT key max_bucket_size requests_per_second s) = 0) /\
    (forall (h : list occurrence) (s : server float),
        Forall (fun reply => reply = 0)
               (fst (run key max_bucket_size requests_per_second h s))).
Proof.
  intros key max rps Hsmall.
  assert (forall s : server float, fst (_LUA_SCRIPT key max rps s) = 0) as Hdeny.
  { intros s. rewrite script_reply. unfold refilled, Lua.math_min, Lua.ge.
    double_numbers.
    destruct (stored (db s) key) as [[tokens last_refill]|];
      match goal with |- context [(?x <? max)%float] =>
        destruct (x <? max)%float eqn:E;
        [rewrite (double_lt_lt_not_le _ _ _ E Hsmall)
        |rewrite (double_lt_not_le _ _ Hsmall)]
      end; reflexivity. }
  split; [exact Hdeny|].
  induction h as [|[t|] h IH]; intros s; cbn [run].
  - constructor.
  - pose proof (Hdeny (set_clock t s)) as Hd. specialize (IH (snd (_LUA_SCRIPT key max rps (set_clock t s)))).
    destruct (_LUA_SCRIPT key max rps (set_clock t s)) as [reply s1].
    cbn [fst snd] in *.
    destruct (run key max rps h s1) as [replies s2]. cbn [fst] in *.
    constructor; assumption.
  - apply IH.
Qed.

Lemma small_bucket_denies_on_doubles_witness :
  fst (_LUA_SCRIPT "app:rate_limit" 0.5%float 1000%float
         (server_holding "app:rate_limit" 0.5%float 100%float (5000, 0))) = 0.
Proof.
  refine (proj1 (small_bucket_denies_on_doubles "app:rate_limit" 0.5%float
                   1000%float _) _).
  reflexivity.
Defined.

(** X16.  On the doubles of Lua the refill saturates: for a
    [max_bucket_size] that is at least 0, whatever is stored, whatever the
    rate and however much time has passed, the tokens the script decides
    on are at most [max_bucket_size], and so are the tokens stored by an
    execution that replies 0. *)
Theorem refill_saturates_on_doubles :
  forall (key : string) (max_bucket_size requests_per_second : float)
         (s : server float),
    (0 <=? max_bucket_size)%float = true ->
    let tokens :=
      refilled (stored (db s) key) (current_time_of (clock s)) max_bucket_size
               requests_per_second in
    (tokens <=? max_bucket_size)%float = true /\
    (fst (_LUA_SCRIPT key max_bucket_size requests_per_second s) = 0 ->
     stored (db (snd (_LUA_SCRIPT key max_bucket_size requests_per_second s))) key
       = Some (tokens, current_time_of (clock s))).
Proof.
  intros key max rps s Hmax tokens. split.
  - subst tokens. unfold refilled, Lua.math_min. double_numbers.
    destruct (stored (db s) key) as [[tk last_refill]|];
      match goal with |- context [(?x <? max)%float] =>
        destruct (x <? max)%float eqn:E;
        [apply double_lt_le, E | apply double_le_refl, Hmax]
      end.
  - rewrite script_reply, script_stored. fold tokens. unfold debited.
    destruct (Lua.ge tokens (Lua.of_Z 1)); [discriminate|reflexivity].
Qed.

Lemma refill_saturates_on_doubles_witness :
  PrimFloat.leb
    (refilled (Some (2%float, 100%float)) (current_time_of (1000000, 0))
              5%float 1000%float)
    5%float = true.
Proof.
  refine (proj1 (refill_saturates_on_doubles "app:rate_limit" 5%float 1000%float
                   (server_holding "app:rate_limit" 2%float 100%float (1000000, 0))
                   _)).
  reflexivity.
Defined.

(** The scenario of the specification on doubles: a bucket of one token at
    one request per second grants, denies at once, and grants again a
    second later. *)
Example grant_deny_wait_grant_on_doubles :
  fst (run "app:rate_limit" 1%float 1%float
         [Execute (100, 0); Execute (100, 0); Execute (101, 0)] fresh_server)
  = [1; 0; 1].
Proof. vm_compute. reflexivity. Qed.

(** ** A negative interval *)


